(** * yt-to-midi: the Synthesia extractor of [extract_midi.py]

    A shallow embedding of [SynthesiaExtractor]: the keyboard geometry built
    by [__init__] and [_build_note_positions], the illumination classifier
    [is_key_lit], and the per-key debounce loop of [extract].

    Modelling conventions.
    - Python [int] is [Z].  Python / numpy floats are exact rationals [Q]
      extended with a NaN ([pyfloat]); [int(x)] truncates toward zero and
      raises on NaN.  Where a statement turns on how a duration compares
      with the minimum duration, the loop is stated once more with the
      arithmetic of times left open ([TimeArith]), and IEEE binary64
      ([float_arith]) is one of its instances.
    - A Python [dict] is an insertion-ordered association list with unique
      keys ([dict]); assigning to an existing key keeps its position.
    - Exceptions are values of [result].
    - The video capture is a record with the metadata [cv2] reports and
      the list of decoded frames; [cv2.cvtColor] is a parameter. *)

From Stdlib Require Import String ZArith QArith Qround List Sorted Bool Lia Lqa.
From Stdlib Require Import PrimFloat SpecFloat FloatOps.
Import ListNotations.

Local Open Scope Z_scope.

(** ** Exceptions *)

Inductive exn :=
  KeyError | ValueError | TypeError | ZeroDivisionError | OverflowError.

Inductive result (A : Type) : Type :=
| Ok (a : A)
| Raise (e : exn).
Arguments Ok {A} a.
Arguments Raise {A} e.

Definition bind {A B} (m : result A) (k : A -> result B) : result B :=
  match m with
  | Ok a => k a
  | Raise e => Raise e
  end.

Notation "x <- m ;; k" := (bind m (fun x => k))
  (at level 61, m at next level, right associativity).
Notation "' p <- m ;; k" := (bind m (fun p => k))
  (at level 61, p pattern, m at next level, right associativity).

(** A [for] loop whose body may raise. *)
Fixpoint for_each {A S} (body : A -> S -> result S) (l : list A) (s : S)
  : result S :=
  match l with
  | [] => Ok s
  | a :: l' => s' <- body a s ;; for_each body l' s'
  end.

(** ** Python dictionaries keyed by integers *)

Module PyDict.

Definition dict (V : Type) := list (Z * V).

Fixpoint get {V} (k : Z) (d : dict V) : option V :=
  match d with
  | [] => None
  | (k', v) :: d' => if k =? k' then Some v else get k d'
  end.

(** [d[k] = v] *)
Fixpoint set {V} (k : Z) (v : V) (d : dict V) : dict V :=
  match d with
  | [] => [(k, v)]
  | (k', v') :: d' =>
      if k =? k' then (k, v) :: d' else (k', v') :: set k v d'
  end.

Definition mem {V} (k : Z) (d : dict V) : bool :=
  match get k d with Some _ => true | None => false end.

Definition keys {V} (d : dict V) : list Z := map fst d.

(** [d[k]] as an expression: raises [KeyError] on a missing key. *)
Definition getitem {V} (k : Z) (d : dict V) : result V :=
  match get k d with
  | Some v => Ok v
  | None => Raise KeyError
  end.

End PyDict.
Import PyDict.

(** ** Floats *)

Inductive pyfloat := Fin (q : Q) | NaN.

Definition fadd (a b : pyfloat) : pyfloat :=
  match a, b with Fin x, Fin y => Fin (x + y) | _, _ => NaN end.

Definition fmul (a b : pyfloat) : pyfloat :=
  match a, b with Fin x, Fin y => Fin (x * y) | _, _ => NaN end.

(** Division by a non-zero constant. *)
Definition fdiv_const (a : pyfloat) (c : Q) : pyfloat :=
  match a with Fin x => Fin (x / c) | NaN => NaN end.

Definition of_int (z : Z) : pyfloat := Fin (inject_Z z).

(** Truncation toward zero. *)
Definition trunc (q : Q) : Z := Z.quot (Qnum q) (Zpos (Qden q)).

(** [int(x)]: [ValueError] on NaN. *)
Definition pyint (x : pyfloat) : result Z :=
  match x with
  | Fin q => Ok (trunc q)
  | NaN => Raise ValueError
  end.

Definition sum_Z (l : list Z) : Z := fold_right Z.add 0 l.

(** [np.mean]: NaN (with a warning, no exception) on an empty list. *)
Definition np_mean (l : list Z) : pyfloat :=
  match l with
  | [] => NaN
  | _ :: _ => Fin (inject_Z (sum_Z l) / inject_Z (Z.of_nat (length l)))
  end.

Fixpoint insert_sorted (k : Z) (l : list Z) : list Z :=
  match l with
  | [] => [k]
  | h :: t => if k <=? h then k :: l else h :: insert_sorted k t
  end.

(** [sorted(...)] on integers. *)
Definition sorted (l : list Z) : list Z := fold_right insert_sorted [] l.

(** [enumerate(l)] *)
Fixpoint enumerate_from {A} (i : Z) (l : list A) : list (Z * A) :=
  match l with
  | [] => []
  | a :: l' => (i, a) :: enumerate_from (i + 1) l'
  end.
Definition enumerate {A} (l : list A) : list (Z * A) := enumerate_from 0 l.

(** ** Data model *)

Inductive Hand := left | right.

(** An entry of [note_positions]: [{'x': ..., 'is_black': ...}]. *)
Record KeyGeometry := mkGeom { x : Z; is_black : bool }.

(** What [cv2.VideoCapture] exposes: the reported properties and the frames
    that successive [read()] calls return from frame index 0. *)
Record Capture (Frame : Type) := mkCapture {
  cap_fps : Q;
  cap_frame_count : Z;
  cap_frame_width : Z;
  cap_frame_height : Z;
  cap_frames : list Frame
}.
Arguments mkCapture {Frame}.
Arguments cap_fps {Frame}.
Arguments cap_frame_count {Frame}.
Arguments cap_frame_width {Frame}.
Arguments cap_frame_height {Frame}.
Arguments cap_frames {Frame}.

Record SynthesiaExtractor (Frame : Type) := mkExtractor {
  cap : Capture Frame;
  fps : Q;
  total_frames : Z;
  width : Z;
  height : Z;
  key_sample_y : Z;
  sample_width : Z;
  sample_height : Z;
  lit_threshold : Q;
  release_debounce_frames : Z;
  c_left_edge : dict Z;
  octave_width : pyfloat;
  white_key_width : pyfloat;
  note_positions : dict KeyGeometry
}.
Arguments mkExtractor {Frame}.
Arguments cap {Frame}.
Arguments fps {Frame}.
Arguments total_frames {Frame}.
Arguments width {Frame}.
Arguments height {Frame}.
Arguments key_sample_y {Frame}.
Arguments sample_width {Frame}.
Arguments sample_height {Frame}.
Arguments lit_threshold {Frame}.
Arguments release_debounce_frames {Frame}.
Arguments c_left_edge {Frame}.
Arguments octave_width {Frame}.
Arguments white_key_width {Frame}.
Arguments note_positions {Frame}.

(** ** Keyboard geometry: [__init__] and [_build_note_positions] *)

(** Left edges of the C keys, calibrated for a 1276x720 video. *)
Definition default_c_positions : dict Z :=
  [(24, 51); (36, 224); (48, 396); (60, 567); (72, 742); (84, 914);
   (96, 1086)].

Definition white_positions : list Z := [0; 2; 4; 5; 7; 9; 11].

(** (semitone, left white index, right white index) *)
Definition black_info : list (Z * Z * Z) :=
  [(1, 0, 1); (3, 1, 2); (6, 3, 4); (8, 4, 5); (10, 5, 6)].

(** [c_left + (i + 0.5) * white_key_width] *)
Definition white_x (c_left : Z) (i : Z) (wkw : pyfloat) : pyfloat :=
  fadd (of_int c_left) (fmul (Fin (inject_Z i + (1 # 2))) wkw).

(** [c_left + (left_white + 1) * white_key_width] *)
Definition black_x (c_left : Z) (left_white : Z) (wkw : pyfloat) : pyfloat :=
  fadd (of_int c_left) (fmul (of_int (left_white + 1)) wkw).

Definition set_white (wkw : pyfloat) (c_midi c_left : Z)
    (e : Z * Z) (np : dict KeyGeometry) : result (dict KeyGeometry) :=
  let '(i, semitone) := e in
  let midi := c_midi + semitone in
  xi <- pyint (white_x c_left i wkw) ;;
  Ok (set midi (mkGeom xi false) np).

Definition set_black (wkw : pyfloat) (c_midi c_left : Z)
    (e : Z * Z * Z) (np : dict KeyGeometry) : result (dict KeyGeometry) :=
  let '(semitone, left_white, _) := e in
  let midi := c_midi + semitone in
  xi <- pyint (black_x c_left left_white wkw) ;;
  Ok (set midi (mkGeom xi true) np).

(** Body of the loop over [self.c_left_edge.items()]. *)
Definition build_octave (wkw : pyfloat) (e : Z * Z)
    (np : dict KeyGeometry) : result (dict KeyGeometry) :=
  let '(c_midi, c_left) := e in
  np1 <- for_each (set_white wkw c_midi c_left) (enumerate white_positions) np ;;
  for_each (set_black wkw c_midi c_left) black_info np1.

(** Body of the trailing loop above C7 (guarded by [midi <= 108]). *)
Definition set_top (wkw : pyfloat) (c7_left : Z)
    (e : Z * Z) (np : dict KeyGeometry) : result (dict KeyGeometry) :=
  let '(i, semitone) := e in
  let midi := 96 + semitone in
  if midi <=? 108 then
    xi <- pyint (white_x c7_left i wkw) ;;
    Ok (set midi (mkGeom xi false) np)
  else Ok np.

Definition _build_note_positions (c_left_edge : dict Z) (wkw : pyfloat)
    (np : dict KeyGeometry) : result (dict KeyGeometry) :=
  np1 <- for_each (build_octave wkw) c_left_edge np ;;
  c7_left <- getitem 96 c_left_edge ;;
  for_each (set_top wkw c7_left) (enumerate white_positions) np1.

(** [[d[c[i+1]] - d[c[i]] for i in range(len(c) - 1)]] *)
Fixpoint octave_widths (d : dict Z) (c_notes : list Z) : result (list Z) :=
  match c_notes with
  | [] => Ok []
  | a :: rest =>
      match rest with
      | [] => Ok []
      | b :: _ =>
          hi <- getitem b d ;;
          lo <- getitem a d ;;
          ws <- octave_widths d rest ;;
          Ok ((hi - lo) :: ws)
      end
  end.

(** [c_positions or {...}]: [None] and the empty dict both select the
    default calibration. *)
Definition or_default (c_positions : option (dict Z)) : dict Z :=
  match c_positions with
  | Some (e :: d) => e :: d
  | Some [] => default_c_positions
  | None => default_c_positions
  end.

Definition __init__ {Frame} (video : Capture Frame) (key_y : Z)
    (c_positions : option (dict Z)) : result (SynthesiaExtractor Frame) :=
  let c_left_edge := or_default c_positions in
  let c_notes := sorted (keys c_left_edge) in
  ws <- octave_widths c_left_edge c_notes ;;
  let octave_width := np_mean ws in
  let white_key_width := fdiv_const octave_width 7 in
  np <- _build_note_positions c_left_edge white_key_width [] ;;
  Ok {| cap := video;
        fps := cap_fps video;
        total_frames := cap_frame_count video;
        width := cap_frame_width video;
        height := cap_frame_height video;
        key_sample_y := key_y;
        sample_width := 7;
        sample_height := 7;
        lit_threshold := 3 # 10;
        release_debounce_frames := 2;
        c_left_edge := c_left_edge;
        octave_width := octave_width;
        white_key_width := white_key_width;
        note_positions := np |}.

(** ** Illumination classifier: [is_key_lit] *)

Record BGR := mkBGR { blue : Z; green : Z; red : Z }.
Record HSV := mkHSV { hue : Z; sat : Z; val : Z }.

(** A decoded frame, indexed as [frame[y, x]]; it covers the
    [height] x [width] rectangle the capture reports. *)
Definition Image := Z -> Z -> BGR.

(** [range(a, b)] *)
Definition range (a b : Z) : list Z :=
  map (fun i => a + Z.of_nat i) (seq 0 (Z.to_nat (b - a))).

(** [frame[y1:y2, x1:x2]] for [0 <= y1], [0 <= x1]. *)
Definition slice (frame : Image) (y1 y2 x1 x2 : Z) : list (list BGR) :=
  map (fun y => map (fun x => frame y x) (range x1 x2)) (range y1 y2).

Definition green_mask (p : HSV) : bool :=
  (35 <=? hue p) && (hue p <=? 85) && (50 <? sat p) && (50 <? val p).

Definition blue_mask (p : HSV) : bool :=
  (85 <=? hue p) && (hue p <=? 135) && (50 <? sat p) && (50 <? val p).

(** [np.sum(mask)] *)
Definition np_sum (mask : HSV -> bool) (region : list (list HSV)) : Z :=
  sum_Z (map (fun row => Z.of_nat (length (filter mask row))) region).

Definition shape0 {A} (region : list (list A)) : Z :=
  Z.of_nat (length region).
Definition shape1 {A} (region : list (list A)) : Z :=
  match region with
  | [] => 0
  | row :: _ => Z.of_nat (length row)
  end.

Section Classifier.

(** [cv2.cvtColor(_, cv2.COLOR_BGR2HSV)], which works pixel by pixel. *)
Variable cvtColor_BGR2HSV : BGR -> HSV.

Definition is_key_lit (self : SynthesiaExtractor Image)
    (frame : Image) (midi : Z) : bool * option Hand :=
  match get midi (note_positions self) with
  | None => (false, None)
  | Some info =>
      let cx := x info in
      let '(cx, cy) :=
        if is_black info then (cx, key_sample_y self + 15)
        else (cx - 3, key_sample_y self) in
      let half_w := sample_width self / 2 in
      let half_h := sample_height self / 2 in
      let x1 := Z.max 0 (cx - half_w) in
      let x2 := Z.min (width self) (cx + half_w + 1) in
      let y1 := Z.max 0 (cy - half_h) in
      let y2 := Z.min (height self) (cy + half_h + 1) in
      if (x2 <=? x1) || (y2 <=? y1) then (false, None)
      else
        let region := slice frame y1 y2 x1 x2 in
        let hsv_region := map (map cvtColor_BGR2HSV) region in
        let total_pixels := shape0 region * shape1 region in
        let green_ratio :=
          (inject_Z (np_sum green_mask hsv_region) / inject_Z total_pixels)%Q in
        let blue_ratio :=
          (inject_Z (np_sum blue_mask hsv_region) / inject_Z total_pixels)%Q in
        if Qle_bool (lit_threshold self) green_ratio then (true, Some left)
        else if Qle_bool (lit_threshold self) blue_ratio then (true, Some right)
        else (false, None)
  end.

End Classifier.

(** ** Debounce loop: [extract] *)

(** An entry of [note_state]. *)
Record KeyState := mkState {
  active : bool;
  start_time : option Q;
  hand : option Hand;
  unlit_count : Z
}.

(** An entry of [all_notes]: keys ['midi'], ['start'], ['duration'],
    ['hand']. *)
Record Note := mkNote {
  midi : Z;
  start : Q;
  duration : Q;
  note_hand : option Hand
}.

Definition fresh_state : KeyState := mkState false None None 999.

Definition default_skip_seconds : Q := 5.
Definition default_min_duration : Q := 3 # 100.

Section Extract.

Context {Frame : Type}.

(** The bound method [self.is_key_lit]. *)
Variable is_key_lit_of : Frame -> Z -> bool * option Hand.

Variable self : SynthesiaExtractor Frame.
Variable min_duration : Q.

(** Lines 164-187: the update of one key's state for one verdict; returns
    the new state and what was appended to [all_notes]. *)
Definition key_step (time_sec : Q) (midi : Z)
    (verdict : bool * option Hand) (state : KeyState)
  : result (KeyState * list Note) :=
  let '(is_lit, hand_) := verdict in
  if is_lit then
    if negb (active state) then
      Ok (mkState true (Some time_sec) hand_ 0, [])
    else
      Ok (mkState (active state) (start_time state) (hand state) 0, [])
  else
    let count := unlit_count state + 1 in
    if active state && (release_debounce_frames self <=? count) then
      if Qeq_bool (fps self) 0 then Raise ZeroDivisionError
      else
        let end_time :=
          (time_sec - inject_Z (release_debounce_frames self - 1) / fps self)%Q in
        match start_time state with
        | None => Raise TypeError
        | Some st =>
            let dur := (end_time - st)%Q in
            Ok (mkState false None (hand state) count,
                if Qle_bool min_duration dur
                then [mkNote midi st dur (hand state)]
                else [])
        end
    else
      Ok (mkState (active state) (start_time state) (hand state) count, []).

(** Lines 152-187: body of [for midi in self.note_positions]. *)
Definition process_key (time_sec : Q) (frame : Frame) (midi : Z)
    (acc : dict KeyState * list Note)
  : result (dict KeyState * list Note) :=
  let '(note_state, all_notes) := acc in
  let verdict := is_key_lit_of frame midi in
  let note_state :=
    if mem midi note_state then note_state
    else set midi fresh_state note_state in
  state <- getitem midi note_state ;;
  '(state', emitted) <- key_step time_sec midi verdict state ;;
  Ok (set midi state' note_state, all_notes ++ emitted).

(** Lines 146-187: one iteration of the [while] loop after a successful
    read.  The progress line computes [frame_num % int(self.fps * 20)]. *)
Definition process_frame (frame_num : Z) (frame : Frame)
    (acc : dict KeyState * list Note)
  : result (dict KeyState * list Note) :=
  if Qeq_bool (fps self) 0 then Raise ZeroDivisionError
  else
    let time_sec := (inject_Z frame_num / fps self)%Q in
    if trunc (fps self * 20) =? 0 then Raise ZeroDivisionError
    else
      for_each (process_key time_sec frame)
               (keys (note_positions self)) acc.

(** The [while True] loop over the frames the capture still returns. *)
Fixpoint read_loop (frames : list Frame) (frame_num : Z)
    (acc : dict KeyState * list Note)
  : result (dict KeyState * list Note) :=
  match frames with
  | [] => Ok acc
  | frame :: rest =>
      acc' <- process_frame frame_num frame acc ;;
      read_loop rest (frame_num + 1) acc'
  end.

(** Body of the loop of lines 193-202. *)
Definition close_key (final_time : Q) (e : Z * KeyState)
    (all_notes : list Note) : list Note :=
  let '(midi, state) := e in
  match active state, start_time state with
  | true, Some st =>
      let dur := (final_time - st)%Q in
      if Qle_bool min_duration dur
      then all_notes ++ [mkNote midi st dur (hand state)]
      else all_notes
  | _, _ => all_notes
  end.

(** Lines 191-202: close remaining notes. *)
Definition close_remaining (note_state : dict KeyState)
    (all_notes : list Note) : result (list Note) :=
  if Qeq_bool (fps self) 0 then Raise ZeroDivisionError
  else
    let final_time := (inject_Z (total_frames self) / fps self)%Q in
    Ok (fold_left (fun notes e => close_key final_time e notes)
                  note_state all_notes).

(** [extract] with [debug=False]; the MIDI file written by [_save_midi] is
    not part of the returned value.  [cap.set(CAP_PROP_POS_FRAMES, n)]
    makes the following reads return the frames from index [n] on. *)
Definition extract_with (skip_seconds : Q) : result (list Note) :=
  let start_frame := trunc (skip_seconds * fps self) in
  let frames := skipn (Z.to_nat start_frame) (cap_frames (cap self)) in
  '(note_state, all_notes) <- read_loop frames start_frame ([], []) ;;
  close_remaining note_state all_notes.

End Extract.

Definition extract (cvtColor_BGR2HSV : BGR -> HSV)
    (self : SynthesiaExtractor Image) (skip_seconds min_duration : Q)
  : result (list Note) :=
  extract_with (is_key_lit cvtColor_BGR2HSV self) self min_duration
               skip_seconds.

(** ** Scripted inputs and the notions the statements use *)

Definition Verdict := (bool * option Hand)%type.

Definition lit (h : Hand) : Verdict := (true, Some h).
Definition unlit : Verdict := (false, None).

(** A scripted classifier: each frame is the verdict for key [m]; every
    other key is unlit. *)
Definition scripted (m : Z) (frame : Verdict) (k : Z) : Verdict :=
  if k =? m then frame else unlit.

(** Time stamp of frame number [n]: [frame_num / self.fps]. *)
Definition frame_time {Frame} (self : SynthesiaExtractor Frame) (n : Z) : Q :=
  (inject_Z n / fps self)%Q.

(** The calibration contract: a dict from C pitches (multiples of 12) to
    pixel coordinates, which are not negative. *)
Definition calibration_contract (c : dict Z) : Prop :=
  NoDup (keys c) /\
  Forall (fun e => fst e mod 12 = 0 /\ 0 <= snd e) c.

(** The notes of pitch [m]. *)
Definition notes_of (m : Z) (notes : list Note) : list Note :=
  filter (fun e => midi e =? m) notes.

Section Press.

Context {Frame : Type}.
Variable is_key_lit_of : Frame -> Z -> bool * option Hand.
Variable self : SynthesiaExtractor Frame.
Variable min_duration : Q.
Variable start_frame : Z.

(** Key [m] is Idle once the frames [pre] have been processed: it has no
    state yet or its state is not active. *)
Definition idle_after (pre : list Frame) (m : Z) : Prop :=
  exists note_state all_notes,
    read_loop is_key_lit_of self min_duration pre start_frame ([], [])
      = Ok (note_state, all_notes) /\
    match get m note_state with
    | None => True
    | Some s => active s = false
    end.

(** A press of key [m] begins at time [t] with hand [h] in the stream
    [frames]: some frame is lit for [m] with hand [h], carries the time
    stamp [t], and [m] is Idle when that frame arrives. *)
Definition press_begins (frames : list Frame) (m : Z) (t : Q)
    (h : option Hand) : Prop :=
  exists pre frame rest,
    frames = pre ++ frame :: rest /\
    is_key_lit_of frame m = (true, h) /\
    t = frame_time self (start_frame + Z.of_nat (length pre)) /\
    idle_after pre m.

End Press.

(** The state [process_key] works on: the stored one, or the lazily
    created one. *)
Definition state_of (m : Z) (note_state : dict KeyState) : KeyState :=
  match get m note_state with
  | Some s => s
  | None => fresh_state
  end.

(** What closing the remaining notes appends for one entry of
    [note_state]. *)
Definition closing_notes (min_duration final_time : Q) (e : Z * KeyState)
  : list Note :=
  close_key min_duration final_time e [].

(** The shape of the loop invariants: a property [P] of every stored key
    state, a property [N] of every note, and a [note_state] without
    repeated keys. *)
Definition loop_inv (P : Z -> KeyState -> Prop) (N : Note -> Prop)
    (acc : dict KeyState * list Note) : Prop :=
  (forall m s, get m (fst acc) = Some s -> P m s) /\
  Forall N (snd acc) /\
  NoDup (keys (fst acc)).

(** Every active key has a start time. *)
Definition timed (_ : Z) (s : KeyState) : Prop :=
  active s = true -> start_time s <> None.

Definition timed_inv : dict KeyState * list Note -> Prop :=
  loop_inv timed (fun _ => True).

(** The assignments [_build_note_positions] makes when the white-key width
    is the finite number [w], in program order: for every calibrated octave
    the seven white keys then the five black keys, and last the white keys
    from C7 up. *)
Definition white_entry (w : Q) (c_midi c_left : Z) (e : Z * Z)
  : Z * KeyGeometry :=
  (c_midi + snd e,
   mkGeom (trunc (inject_Z c_left + (inject_Z (fst e) + (1 # 2)) * w)) false).

Definition black_entry (w : Q) (c_midi c_left : Z) (e : Z * Z * Z)
  : Z * KeyGeometry :=
  (c_midi + fst (fst e),
   mkGeom (trunc (inject_Z c_left + inject_Z (snd (fst e) + 1) * w)) true).

Definition octave_entries (w : Q) (e : Z * Z) : list (Z * KeyGeometry) :=
  map (white_entry w (fst e) (snd e)) (enumerate white_positions) ++
  map (black_entry w (fst e) (snd e)) black_info.

Definition top_entries (w : Q) (c7_left : Z) : list (Z * KeyGeometry) :=
  map (white_entry w 96 c7_left) (enumerate white_positions).

Definition table_entries (w : Q) (calib : dict Z) (c7_left : Z)
  : list (Z * KeyGeometry) :=
  flat_map (octave_entries w) calib ++ top_entries w c7_left.

(** A sequence of assignments [np[k] = g]. *)
Definition store (np : dict KeyGeometry) (l : list (Z * KeyGeometry))
  : dict KeyGeometry :=
  fold_left (fun d e => set (fst e) (snd e) d) l np.

(** ** The sampling window of [is_key_lit] *)

(** The centre [(cx, cy)] of the sampled region of a key. *)
Definition sample_center {Frame} (self : SynthesiaExtractor Frame)
    (info : KeyGeometry) : Z * Z :=
  if is_black info then (x info, key_sample_y self + 15)
  else (x info - 3, key_sample_y self).

(** The clamped bounds [(x1, x2, y1, y2)] of the sampled region. *)
Definition sample_window {Frame} (self : SynthesiaExtractor Frame)
    (info : KeyGeometry) : Z * Z * Z * Z :=
  let '(cx, cy) := sample_center self info in
  let half_w := sample_width self / 2 in
  let half_h := sample_height self / 2 in
  (Z.max 0 (cx - half_w), Z.min (width self) (cx + half_w + 1),
   Z.max 0 (cy - half_h), Z.min (height self) (cy + half_h + 1)).

(** End of a note. *)
Definition note_end (e : Note) : Q := (start e + duration e)%Q.

(** A classifier whose lit verdicts always name a hand, as [is_key_lit]
    does. *)
Definition names_hand {Frame} (is_key_lit_of : Frame -> Z -> bool * option Hand)
  : Prop :=
  forall frame m h, is_key_lit_of frame m = (true, h) -> h <> None.

(** ** Writing the notes: [_save_midi] *)

(** The calls made on the [MIDIFile] object, in order. *)
Inductive MidiCall :=
| addTrackName (track time : Z) (name : string)
| addTempo (track time : Z) (tempo : Q)
| addNote (track channel pitch : Z) (time duration : Q) (volume : Z).

Definition default_tempo : Q := 120.

(** [0 if note['hand'] == 'left' else 1] *)
Definition track_of (note : Note) : Z :=
  match note_hand note with
  | Some left => 0
  | _ => 1
  end.

(** The calls received by the [MIDIFile] that is written to [path];
    [60.0 / tempo] raises on a zero tempo, and then no file is written. *)
Definition _save_midi (notes : list Note) (tempo : Q)
  : result (list MidiCall) :=
  let header :=
    [addTrackName 0 0 "Left Hand"; addTrackName 1 0 "Right Hand";
     addTempo 0 0 tempo] in
  if Qeq_bool tempo 0 then Raise ZeroDivisionError
  else
    let sec_per_beat := (60 / tempo)%Q in
    Ok (header ++
        map (fun note =>
               addNote (track_of note) 0 (midi note)
                       (start note / sec_per_beat)
                       (duration note / sec_per_beat) 100)
            notes).

(** The notes added to a track, as (pitch, time, duration) in beats. *)
Fixpoint track_notes (track : Z) (calls : list MidiCall)
  : list (Z * Q * Q) :=
  match calls with
  | [] => []
  | addNote tr _ pitch time dur _ :: rest =>
      if tr =? track then (pitch, time, dur) :: track_notes track rest
      else track_notes track rest
  | _ :: rest => track_notes track rest
  end.

(** ** Summary: [analyze] *)

Definition hand_is (h : Hand) (n : Note) : bool :=
  match note_hand n, h with
  | Some left, left => true
  | Some right, right => true
  | _, _ => false
  end.

(** The numbers of the line [Total: ..., Left: ..., Right: ...]; nothing is
    printed for an empty list. *)
Definition analyze_counts (notes : list Note) : option (nat * nat * nat) :=
  match notes with
  | [] => None
  | _ :: _ =>
      Some (length notes,
            length (filter (hand_is left) notes),
            length (filter (hand_is right) notes))
  end.

Definition note_names : list string :=
  ["C"; "C#"; "D"; "D#"; "E"; "F"; "F#"; "G"; "G#"; "A"; "A#"; "B"]%string.

(** [name] and [n['midi']//12-1] of the listing of the first notes. *)
Definition note_label (pitch : Z) : string * Z :=
  (nth (Z.to_nat (pitch mod 12)) note_names ""%string, pitch / 12 - 1).

(** A name with a sharp sign. *)
Definition is_sharp (name : string) : bool :=
  match index 0 "#" name with
  | Some _ => true
  | None => false
  end.

(** A note as [_save_midi] passes it on: pitch, time and duration in
    beats. *)
Definition to_beats (tempo : Q) (n : Note) : Z * Q * Q :=
  (midi n, (start n / (60 / tempo))%Q, (duration n / (60 / tempo))%Q).

(** Two notes, the first emitted before the second: if they have the same
    pitch the first ends no later than the second starts. *)
Definition in_sequence (e1 e2 : Note) : Prop :=
  midi e1 = midi e2 -> (note_end e1 <= start e2)%Q.

(** What holds of every stored key state. *)
Definition consistent_state {Frame} (self : SynthesiaExtractor Frame)
    (s : KeyState) : Prop :=
  0 <= unlit_count s /\
  (active s = true ->
     start_time s <> None /\ unlit_count s < release_debounce_frames self) /\
  (active s = false -> start_time s = None).

(** The invariant behind the ordering of notes of one pitch: every note
    so far has ended by [now]; the notes of an active key have ended by the
    start of its press; and the notes so far are in sequence. *)
Definition ordered_inv (now : Q) (acc : dict KeyState * list Note) : Prop :=
  (forall e, In e (snd acc) -> (note_end e <= now)%Q) /\
  (forall m s st,
      get m (fst acc) = Some s -> active s = true -> start_time s = Some st ->
      forall e, In e (snd acc) -> midi e = m -> (note_end e <= st)%Q) /\
  ForallOrdPairs in_sequence (snd acc).

(** ** The debounce loop over the arithmetic of the source

    The loop of [extract] once more, with the type of times and the
    operations the source applies to them left open, so that statements
    about the test [dur >= min_duration] hold for the floating-point
    numbers of the source as well as for exact rationals. *)

Class TimeArith (T : Type) := {
  (** an [int] operand of a float operation *)
  t_of_int : Z -> T;
  t_sub : T -> T -> T;
  t_mul : T -> T -> T;
  (** [a / b] for a non-zero [b] *)
  t_div : T -> T -> T;
  (** [a >= b] *)
  t_ge : T -> T -> bool;
  (** [b == 0], where [a / b] raises [ZeroDivisionError] *)
  t_is_zero : T -> bool;
  (** [int(a)] *)
  t_int : T -> result Z
}.

(** Exact rationals, the arithmetic of [key_step] and [close_key]. *)
#[export] Instance Q_arith : TimeArith Q := {
  t_of_int := inject_Z;
  t_sub := Qminus;
  t_mul := Qmult;
  t_div := Qdiv;
  t_ge := fun a b => Qle_bool b a;
  t_is_zero := fun b => Qeq_bool b 0;
  t_int := fun a => Ok (trunc a)
}.

(** [float(z)]: the binary64 number nearest to [z], ties to even. *)
Definition float_of_int (z : Z) : float :=
  SF2Prim (binary_normalize 53 1024 z 0 false).

(** [int(f)] on a binary64 number: truncation toward zero, [ValueError] on
    NaN and [OverflowError] on an infinity. *)
Definition float_int (f : float) : result Z :=
  match Prim2SF f with
  | S754_zero _ => Ok 0
  | S754_infinity _ => Raise OverflowError
  | S754_nan => Raise ValueError
  | S754_finite s m e =>
      let v := if 0 <=? e then Z.pos m * 2 ^ e
               else Z.quot (Z.pos m) (2 ^ (- e)) in
      Ok (if s then - v else v)
  end.

(** IEEE 754 binary64, the floats of Python. *)
#[export] Instance float_arith : TimeArith float := {
  t_of_int := float_of_int;
  t_sub := PrimFloat.sub;
  t_mul := PrimFloat.mul;
  t_div := PrimFloat.div;
  t_ge := fun a b => PrimFloat.leb b a;
  t_is_zero := fun b => PrimFloat.eqb b PrimFloat.zero;
  t_int := float_int
}.

(** An entry of [note_state] with times in [T]. *)
Record KeyStateOf (T : Type) := mkStateOf {
  t_active : bool;
  t_start_time : option T;
  t_hand : option Hand;
  t_unlit_count : Z
}.
Arguments mkStateOf {T}.
Arguments t_active {T}.
Arguments t_start_time {T}.
Arguments t_hand {T}.
Arguments t_unlit_count {T}.

(** An entry of [all_notes] with times in [T]. *)
Record NoteOf (T : Type) := mkNoteOf {
  t_midi : Z;
  t_start : T;
  t_duration : T;
  t_note_hand : option Hand
}.
Arguments mkNoteOf {T}.
Arguments t_midi {T}.
Arguments t_start {T}.
Arguments t_duration {T}.
Arguments t_note_hand {T}.

Definition fresh_state_of (T : Type) : KeyStateOf T :=
  mkStateOf false None None 999.

Definition state_of_t {T} (m : Z) (note_state : dict (KeyStateOf T))
  : KeyStateOf T :=
  match get m note_state with
  | Some s => s
  | None => fresh_state_of T
  end.

Definition notes_of_t {T} (m : Z) (notes : list (NoteOf T)) : list (NoteOf T) :=
  filter (fun e => t_midi e =? m) notes.

Section TimedLoop.

Context {T : Type} {A : TimeArith T} {Frame : Type}.

Variable is_key_lit_of : Frame -> Z -> bool * option Hand.

(** The extractor, for everything but the frame rate. *)
Variable self : SynthesiaExtractor Frame.

(** [self.fps] as a number of the arithmetic. *)
Variable fps_t : T.

Variable min_duration : T.

(** Lines 164-187. *)
Definition key_step_t (time_sec : T) (midi : Z)
    (verdict : bool * option Hand) (state : KeyStateOf T)
  : result (KeyStateOf T * list (NoteOf T)) :=
  let '(is_lit, hand_) := verdict in
  if is_lit then
    if negb (t_active state) then
      Ok (mkStateOf true (Some time_sec) hand_ 0, [])
    else
      Ok (mkStateOf (t_active state) (t_start_time state) (t_hand state) 0, [])
  else
    let count := t_unlit_count state + 1 in
    if t_active state && (release_debounce_frames self <=? count) then
      if t_is_zero fps_t then Raise ZeroDivisionError
      else
        let end_time :=
          t_sub time_sec
                (t_div (t_of_int (release_debounce_frames self - 1)) fps_t) in
        match t_start_time state with
        | None => Raise TypeError
        | Some st =>
            let dur := t_sub end_time st in
            Ok (mkStateOf false None (t_hand state) count,
                if t_ge dur min_duration
                then [mkNoteOf midi st dur (t_hand state)]
                else [])
        end
    else
      Ok (mkStateOf (t_active state) (t_start_time state) (t_hand state) count,
          []).

(** Lines 152-187. *)
Definition process_key_t (time_sec : T) (frame : Frame) (midi : Z)
    (acc : dict (KeyStateOf T) * list (NoteOf T))
  : result (dict (KeyStateOf T) * list (NoteOf T)) :=
  let '(note_state, all_notes) := acc in
  let verdict := is_key_lit_of frame midi in
  let note_state :=
    if mem midi note_state then note_state
    else set midi (fresh_state_of T) note_state in
  state <- getitem midi note_state ;;
  '(state', emitted) <- key_step_t time_sec midi verdict state ;;
  Ok (set midi state' note_state, all_notes ++ emitted).

(** Lines 146-187. *)
Definition process_frame_t (frame_num : Z) (frame : Frame)
    (acc : dict (KeyStateOf T) * list (NoteOf T))
  : result (dict (KeyStateOf T) * list (NoteOf T)) :=
  if t_is_zero fps_t then Raise ZeroDivisionError
  else
    let time_sec := t_div (t_of_int frame_num) fps_t in
    period <- t_int (t_mul fps_t (t_of_int 20)) ;;
    if period =? 0 then Raise ZeroDivisionError
    else
      for_each (process_key_t time_sec frame)
               (keys (note_positions self)) acc.

Fixpoint read_loop_t (frames : list Frame) (frame_num : Z)
    (acc : dict (KeyStateOf T) * list (NoteOf T))
  : result (dict (KeyStateOf T) * list (NoteOf T)) :=
  match frames with
  | [] => Ok acc
  | frame :: rest =>
      acc' <- process_frame_t frame_num frame acc ;;
      read_loop_t rest (frame_num + 1) acc'
  end.

(** What lines 193-202 append for one entry of [note_state]. *)
Definition closing_notes_t (final_time : T) (e : Z * KeyStateOf T)
  : list (NoteOf T) :=
  let '(midi, state) := e in
  match t_active state, t_start_time state with
  | true, Some st =>
      let dur := t_sub final_time st in
      if t_ge dur min_duration
      then [mkNoteOf midi st dur (t_hand state)]
      else []
  | _, _ => []
  end.

(** Lines 191-202. *)
Definition close_remaining_t (note_state : dict (KeyStateOf T))
    (all_notes : list (NoteOf T)) : result (list (NoteOf T)) :=
  if t_is_zero fps_t then Raise ZeroDivisionError
  else
    let final_time := t_div (t_of_int (total_frames self)) fps_t in
    Ok (fold_left (fun notes e => notes ++ closing_notes_t final_time e)
                  note_state all_notes).

(** [extract] with [debug=False]. *)
Definition extract_t (skip_seconds : T) : result (list (NoteOf T)) :=
  start_frame <- t_int (t_mul skip_seconds fps_t) ;;
  let frames := skipn (Z.to_nat start_frame) (cap_frames (cap self)) in
  '(note_state, all_notes) <- read_loop_t frames start_frame ([], []) ;;
  close_remaining_t note_state all_notes.

End TimedLoop.

(** The rational key state and note as instances of the open ones. *)
Definition state_as_Q (s : KeyState) : KeyStateOf Q :=
  mkStateOf (active s) (start_time s) (hand s) (unlit_count s).

Definition note_as_Q (e : Note) : NoteOf Q :=
  mkNoteOf (midi e) (start e) (duration e) (note_hand e).

(** The binary64 number nearest to [a / b], as the literal [0.03] is for
    3 and 100. *)
Definition float_ratio (a b : Z) : float :=
  PrimFloat.div (float_of_int a) (float_of_int b).

(** * Properties *)

(** ** Dictionaries *)

Lemma get_set_same {V} (k : Z) (v : V) (d : dict V) :
  get k (set k v d) = Some v.
Proof.
  induction d as [|[k' v'] d IH]; simpl.
  - now rewrite Z.eqb_refl.
  - destruct (k =? k') eqn:E; simpl; rewrite ?Z.eqb_refl, ?E; auto.
Qed.

Lemma get_set_other {V} (k k0 : Z) (v : V) (d : dict V) :
  k0 <> k -> get k0 (set k v d) = get k0 d.
Proof.
  intros Hne. induction d as [|[k' v'] d IH]; simpl.
  - destruct (k0 =? k) eqn:E; auto. apply Z.eqb_eq in E. contradiction.
  - destruct (k =? k') eqn:E; simpl.
    + apply Z.eqb_eq in E. subst k'.
      destruct (k0 =? k) eqn:E0; auto. apply Z.eqb_eq in E0. contradiction.
    + now rewrite IH.
Qed.

Lemma in_keys_set {V} (k k0 : Z) (v : V) (d : dict V) :
  In k0 (keys (set k v d)) -> k0 = k \/ In k0 (keys d).
Proof.
  induction d as [|[k' v'] d IH]; simpl.
  - intros [H|[]]; auto.
  - destruct (k =? k') eqn:E; simpl.
    + apply Z.eqb_eq in E. subst k'. intros [H|H]; auto.
    + intros [H|H]; auto. apply IH in H. tauto.
Qed.

Lemma NoDup_keys_set {V} (k : Z) (v : V) (d : dict V) :
  NoDup (keys d) -> NoDup (keys (set k v d)).
Proof.
  induction d as [|[k' v'] d IH]; simpl; intros H.
  - constructor; [intros [] | constructor].
  - inversion H as [|? ? Hnin Hnd]; subst.
    destruct (k =? k') eqn:E; simpl.
    + apply Z.eqb_eq in E. subst k'. now constructor.
    + constructor; auto.
      intros Hin. apply in_keys_set in Hin. destruct Hin as [->|Hin]; auto.
      now rewrite Z.eqb_refl in E.
Qed.

Lemma get_in {V} (k : Z) (v : V) (d : dict V) :
  get k d = Some v -> In (k, v) d.
Proof.
  induction d as [|[k' v'] d IH]; simpl; [discriminate|].
  destruct (k =? k') eqn:E.
  - apply Z.eqb_eq in E. subst k'. intros [= ->]. now left.
  - intros H. right. auto.
Qed.

Lemma in_get {V} (k : Z) (v : V) (d : dict V) :
  NoDup (keys d) -> In (k, v) d -> get k d = Some v.
Proof.
  induction d as [|[k' v'] d IH]; simpl; [intros _ []|].
  intros Hnd [H|H].
  - injection H as -> ->. now rewrite Z.eqb_refl.
  - inversion Hnd as [|? ? Hnin Hnd']; subst.
    destruct (k =? k') eqn:E; auto.
    apply Z.eqb_eq in E. subst k'. exfalso. apply Hnin.
    change k with (fst (k, v)). now apply in_map.
Qed.

(** ** Keyboard geometry *)

(** C1.  With the default calibration [__init__] succeeds and
    [note_positions] holds 84 entries, one for each pitch 24..107; the
    pitches 21, 22, 23 and 108 of the 88-key range have no entry.  The
    docstring of [_build_note_positions] announces all 88 keys. *)
Theorem default_table_has_84_keys :
  forall (Frame : Type) (video : Capture Frame) (key_y : Z),
  exists self,
    __init__ video key_y None = Ok self /\
    length (note_positions self) = 84%nat /\
    forallb (fun p => mem p (note_positions self)) (range 24 108) = true /\
    get 21 (note_positions self) = None /\
    get 22 (note_positions self) = None /\
    get 23 (note_positions self) = None /\
    get 108 (note_positions self) = None.
Proof.
  intros Frame video key_y. eexists. split; [reflexivity|].
  vm_compute. repeat split; reflexivity.
Qed.

(** C5, as stated, fails on the empty mapping: [c_positions or {...}] takes
    an empty dict for an omitted one, and the construction succeeds with the
    default table. *)
Lemma empty_calibration_builds_default_table :
  exists self,
    __init__ (mkCapture 30 0 1276 720 (@nil Image)) 500 (Some []) = Ok self /\
    length (c_left_edge self) = 7%nat /\
    length (note_positions self) = 84%nat.
Proof.
  eexists. split; [reflexivity|]. vm_compute. split; reflexivity.
Qed.

(** C5, amended.  A calibration with exactly one reference point makes the
    construction fail: the mean of no octave width is NaN and the first
    [int(x)] raises [ValueError].  An empty calibration is the same as an
    omitted one. *)
Theorem single_point_calibration_fails :
  forall (Frame : Type) (video : Capture Frame) (key_y c_midi c_left : Z),
    __init__ video key_y (Some [(c_midi, c_left)]) = Raise ValueError /\
    __init__ video key_y (Some []) = __init__ video key_y None.
Proof.
  intros. split; reflexivity.
Qed.

(** ** Illumination classifier *)

(** C4, as stated, fails: hue 85 with qualifying saturation and value is
    blue-like, since the blue mask tests [h >= 85]. *)
Lemma blue_mask_accepts_hue_85 :
  ~ (forall p : HSV, blue_mask p = true -> 85 < hue p).
Proof.
  intros H. specialize (H (mkHSV 85 200 200) eq_refl). simpl in H. lia.
Qed.

(** C4, amended.  A pixel is blue-like exactly when its hue is in the closed
    interval [85,135] and saturation and value exceed 50; at hue 85 the
    green and the blue mask agree, so a qualifying pixel is both. *)
Theorem blue_mask_closed_interval :
  forall p : HSV,
    (blue_mask p = true <->
       85 <= hue p <= 135 /\ 50 < sat p /\ 50 < val p) /\
    green_mask (mkHSV 85 (sat p) (val p)) = blue_mask (mkHSV 85 (sat p) (val p)).
Proof.
  intros [h s v]. unfold blue_mask, green_mask. simpl. split; [|reflexivity].
  rewrite !andb_true_iff, !Z.leb_le, !Z.ltb_lt. lia.
Qed.

(** C10.  A pitch without a geometry entry is unlit with no hand, whatever
    the frame. *)
Theorem is_key_lit_unmapped :
  forall (cvt : BGR -> HSV) (self : SynthesiaExtractor Image)
         (frame : Image) (pitch : Z),
    get pitch (note_positions self) = None ->
    is_key_lit cvt self frame pitch = (false, None).
Proof.
  intros cvt self frame pitch H. unfold is_key_lit. now rewrite H.
Qed.

Lemma is_key_lit_unmapped_witness :
  exists self,
    __init__ (mkCapture 30 0 1276 720 (@nil Image)) 500 None = Ok self /\
    get 21 (note_positions self) = None /\
    is_key_lit (fun p => mkHSV (blue p) (green p) (red p)) self
               (fun _ _ => mkBGR 255 0 0) 21 = (false, None).
Proof.
  eexists. split; [reflexivity|]. split; [reflexivity|].
  apply (is_key_lit_unmapped _ _ _ 21). reflexivity.
Defined.

(** ** The debounce loop *)

Lemma for_each_app {A S} (body : A -> S -> result S) (l1 l2 : list A) (s : S) :
  for_each body (l1 ++ l2) s = (s' <- for_each body l1 s ;; for_each body l2 s').
Proof.
  revert s. induction l1 as [|a l1 IH]; intros s; simpl; auto.
  destruct (body a s); simpl; auto.
Qed.

Section LoopFacts.

Context {Frame : Type}.
Variable is_key_lit_of : Frame -> Z -> bool * option Hand.
Variable self : SynthesiaExtractor Frame.
Variable min_duration : Q.

Local Abbreviation kstep := (key_step self min_duration).
Local Abbreviation pkey := (process_key is_key_lit_of self min_duration).

Lemma process_key_unfold t frame m ns notes :
  pkey t frame m (ns, notes) =
  ('(state', emitted) <- kstep t m (is_key_lit_of frame m) (state_of m ns) ;;
   Ok (set m state' (if mem m ns then ns else set m fresh_state ns),
       notes ++ emitted)).
Proof.
  unfold process_key, state_of, mem, getitem.
  destruct (get m ns) as [s|] eqn:E.
  - rewrite E. reflexivity.
  - rewrite get_set_same. reflexivity.
Qed.

Lemma process_key_inv t frame m ns notes ns' notes' :
  pkey t frame m (ns, notes) = Ok (ns', notes') ->
  exists state' emitted,
    kstep t m (is_key_lit_of frame m) (state_of m ns) = Ok (state', emitted) /\
    notes' = notes ++ emitted /\
    get m ns' = Some state' /\
    (forall k, k <> m -> get k ns' = get k ns) /\
    (NoDup (keys ns) -> NoDup (keys ns')).
Proof.
  rewrite process_key_unfold.
  destruct (kstep t m (is_key_lit_of frame m) (state_of m ns))
    as [[state' emitted]|e] eqn:E; simpl; [|discriminate].
  intros [= <- <-]. exists state', emitted. split; [reflexivity|].
  split; [reflexivity|]. split; [apply get_set_same|]. split.
  - intros k Hk. rewrite get_set_other by assumption.
    unfold mem. destruct (get m ns); auto using get_set_other.
  - intros Hnd. apply NoDup_keys_set.
    destruct (mem m ns); auto using NoDup_keys_set.
Qed.

(** What one step of a key yields. *)
Lemma key_step_emitted t m v state state' emitted :
  kstep t m v state = Ok (state', emitted) ->
  emitted = [] \/
  exists st,
    active state = true /\ start_time state = Some st /\ fst v = false /\
    active state' = false /\
    Qle_bool min_duration
      (t - inject_Z (release_debounce_frames self - 1) / fps self - st) = true /\
    emitted =
      [mkNote m st
         (t - inject_Z (release_debounce_frames self - 1) / fps self - st)
         (hand state)].
Proof.
  unfold key_step. destruct v as [[|] h].
  - destruct (negb (active state)); intros [= <- <-]; auto.
  - destruct (active state) eqn:Ea; simpl.
    + destruct (release_debounce_frames self <=? unlit_count state + 1).
      * destruct (Qeq_bool (fps self) 0); [discriminate|].
        destruct (start_time state) as [st|] eqn:Es; [|discriminate].
        destruct (Qle_bool min_duration _) eqn:Ed; intros [= <- <-]; auto.
        right. exists st. repeat split; auto.
      * intros [= <- <-]; auto.
    + intros [= <- <-]; auto.
Qed.

(** The state after one step of a key. *)
Lemma key_step_state t m v state state' emitted :
  kstep t m v state = Ok (state', emitted) ->
  (active state' = true ->
     (active state = true /\ start_time state' = start_time state /\
      hand state' = hand state) \/
     (active state = false /\ fst v = true /\
      start_time state' = Some t /\ hand state' = snd v)).
Proof.
  unfold key_step. destruct v as [[|] h].
  - destruct (active state) eqn:Ea; simpl; intros [= <- <-]; simpl; auto.
  - destruct (active state) eqn:Ea; simpl.
    + destruct (release_debounce_frames self <=? unlit_count state + 1).
      * destruct (Qeq_bool (fps self) 0); [discriminate|].
        destruct (start_time state) as [st|] eqn:Es; [|discriminate].
        intros [= <- <-]; simpl. discriminate.
      * intros [= <- <-]; simpl; auto.
    + intros [= <- <-]; simpl. discriminate.
Qed.


End LoopFacts.

Section LoopInvariant.

Context {Frame : Type}.
Variable is_key_lit_of : Frame -> Z -> bool * option Hand.
Variable self : SynthesiaExtractor Frame.
Variable min_duration : Q.

(** A property [P] of every stored key state and a property [N] of every
    note, both kept by each step taken at a frame number satisfying [T]. *)
Variable P : Z -> KeyState -> Prop.
Variable N : Note -> Prop.
Variable T : Z -> Prop.

Hypothesis P_fresh : forall m, P m fresh_state.
Hypothesis step_keeps :
  forall n m v state state' emitted,
    T n -> P m state ->
    key_step self min_duration (frame_time self n) m v state
      = Ok (state', emitted) ->
    P m state' /\ Forall N emitted.

Local Abbreviation loop_inv := (loop_inv P N).

Lemma P_state_of m ns :
  (forall k s, get k ns = Some s -> P k s) -> P m (state_of m ns).
Proof.
  intros H. unfold state_of. destruct (get m ns) eqn:E; auto.
Qed.

Lemma process_key_keeps n frame m acc acc' :
  T n -> loop_inv acc ->
  process_key is_key_lit_of self min_duration (frame_time self n) frame m acc
    = Ok acc' ->
  loop_inv acc'.
Proof.
  intros HT (HP & HN & Hnd) Hrun. destruct acc as [ns notes], acc' as [ns' notes'].
  apply process_key_inv in Hrun.
  destruct Hrun as (state' & emitted & Hstep & -> & Hget & Hother & Hnd').
  simpl in *.
  destruct (step_keeps _ _ _ _ _ _ HT (P_state_of m ns HP) Hstep) as [HP' HN'].
  repeat split; simpl; auto.
  - intros k s Hk. destruct (Z.eq_dec k m) as [->|Hne].
    + rewrite Hget in Hk. now injection Hk as <-.
    + rewrite Hother in Hk by assumption. auto.
  - apply Forall_app. auto.
Qed.

Lemma for_each_keys_keeps n frame ks acc acc' :
  T n -> loop_inv acc ->
  for_each (process_key is_key_lit_of self min_duration (frame_time self n) frame)
           ks acc = Ok acc' ->
  loop_inv acc'.
Proof.
  intros HT. revert acc. induction ks as [|m ks IH]; intros acc Hinv; simpl.
  - now intros [= <-].
  - destruct (process_key _ _ _ _ _ m acc) as [acc1|e] eqn:E; simpl; [|discriminate].
    apply IH. eapply process_key_keeps; eauto.
Qed.

Lemma process_frame_keeps n frame acc acc' :
  T n -> loop_inv acc ->
  process_frame is_key_lit_of self min_duration n frame acc = Ok acc' ->
  loop_inv acc'.
Proof.
  intros HT Hinv. unfold process_frame.
  destruct (Qeq_bool (fps self) 0); [discriminate|].
  destruct (trunc (fps self * 20) =? 0); [discriminate|].
  now apply for_each_keys_keeps.
Qed.

Lemma read_loop_keeps frames n acc acc' :
  (forall k, n <= k -> T k) -> loop_inv acc ->
  read_loop is_key_lit_of self min_duration frames n acc = Ok acc' ->
  loop_inv acc'.
Proof.
  revert n acc. induction frames as [|frame frames IH]; intros n acc HT Hinv; simpl.
  - now intros [= <-].
  - destruct (process_frame _ _ _ n frame acc) as [acc1|e] eqn:E; simpl; [|discriminate].
    apply IH.
    + intros k Hk. apply HT. lia.
    + eapply process_frame_keeps; eauto. apply HT. lia.
Qed.

Lemma loop_inv_init : loop_inv ([], []).
Proof.
  repeat split; simpl; try constructor. intros m s. discriminate.
Qed.

End LoopInvariant.

(** Closing the remaining notes appends, entry by entry, the notes of
    [closing_notes]. *)
Lemma close_fold min_duration final_time (ns : dict KeyState) (notes : list Note) :
  fold_left (fun acc e => close_key min_duration final_time e acc) ns notes =
  notes ++ flat_map (closing_notes min_duration final_time) ns.
Proof.
  revert notes. induction ns as [|[m s] ns IH]; intros notes; simpl.
  - now rewrite app_nil_r.
  - rewrite IH. unfold closing_notes at 2. simpl.
    destruct (active s); [|reflexivity].
    destruct (start_time s) as [st|]; [|reflexivity].
    destruct (Qle_bool min_duration (final_time - st)); simpl;
      now rewrite <- ?app_assoc.
Qed.

Lemma closing_notes_cases min_duration final_time m s :
  closing_notes min_duration final_time (m, s) = [] \/
  exists st,
    active s = true /\ start_time s = Some st /\
    Qle_bool min_duration (final_time - st) = true /\
    closing_notes min_duration final_time (m, s) =
      [mkNote m st (final_time - st) (hand s)].
Proof.
  unfold closing_notes, close_key.
  destruct (active s); auto.
  destruct (start_time s) as [st|]; auto.
  destruct (Qle_bool min_duration (final_time - st)) eqn:E; auto.
  right. exists st. auto.
Qed.

Section Totality.

Context {Frame : Type}.
Variable is_key_lit_of : Frame -> Z -> bool * option Hand.
Variable self : SynthesiaExtractor Frame.
Variable min_duration : Q.

Hypothesis fps_nonzero : Qeq_bool (fps self) 0 = false.
Hypothesis progress_period : (trunc (fps self * 20) =? 0) = false.

Lemma timed_fresh : forall m, timed m fresh_state.
Proof. intros m H. discriminate. Qed.

Lemma timed_step n m v state state' emitted :
  True -> timed m state ->
  key_step self min_duration (frame_time self n) m v state = Ok (state', emitted) ->
  timed m state' /\ Forall (fun _ => True) emitted.
Proof.
  intros _ Hs Hstep. split; [|now apply Forall_forall].
  intros Ha. destruct (key_step_state _ _ _ _ _ _ _ _ Hstep Ha)
    as [(Ha' & -> & _)|(_ & _ & -> & _)]; [auto|discriminate].
Qed.




End Totality.

(** ** Frame rate and time stamps *)




Lemma frame_time_mono {Frame} (self : SynthesiaExtractor Frame) (a b : Z) :
  (0 < fps self)%Q -> a <= b -> (frame_time self a <= frame_time self b)%Q.
Proof.
  intros Hf Hab. unfold frame_time, Qdiv.
  apply Qmult_le_compat_r.
  - now rewrite <- Zle_Qle.
  - apply Qlt_le_weak. now apply Qinv_lt_0_compat.
Qed.

Lemma read_loop_started {Frame} (is_key_lit_of : Frame -> Z -> bool * option Hand)
    self min_duration frames n ns notes m s :
  read_loop is_key_lit_of self min_duration frames n ([], []) = Ok (ns, notes) ->
  get m ns = Some s ->
  Qeq_bool (fps self) 0 = false.
Proof.
  destruct frames as [|frame frames]; simpl.
  - intros [= <- <-]. discriminate.
  - unfold process_frame. destruct (Qeq_bool (fps self) 0); auto. discriminate.
Qed.

(** ** Notes of one pitch among the closing notes *)

Lemma notes_of_app m l1 l2 :
  notes_of m (l1 ++ l2) = notes_of m l1 ++ notes_of m l2.
Proof. apply filter_app. Qed.

Lemma notes_of_closing_same min_duration final_time m s :
  notes_of m (closing_notes min_duration final_time (m, s)) =
  closing_notes min_duration final_time (m, s).
Proof.
  destruct (closing_notes_cases min_duration final_time m s)
    as [->|(st & _ & _ & _ & ->)]; simpl; auto.
  now rewrite Z.eqb_refl.
Qed.

Lemma notes_of_closing_other min_duration final_time m k s :
  k <> m -> notes_of m (closing_notes min_duration final_time (k, s)) = [].
Proof.
  intros Hne.
  destruct (closing_notes_cases min_duration final_time k s)
    as [->|(st & _ & _ & _ & ->)]; simpl; auto.
  destruct (k =? m) eqn:E; auto. apply Z.eqb_eq in E. contradiction.
Qed.

Lemma notes_of_closing_all min_duration final_time m s (ns : dict KeyState) :
  NoDup (keys ns) -> get m ns = Some s ->
  notes_of m (flat_map (closing_notes min_duration final_time) ns) =
  closing_notes min_duration final_time (m, s).
Proof.
  induction ns as [|[k s'] ns IH]; cbn [flat_map get keys map fst];
    [discriminate|].
  intros Hnd Hget. inversion Hnd as [|? ? Hnin Hnd']; subst.
  rewrite notes_of_app. destruct (m =? k) eqn:E.
  - apply Z.eqb_eq in E. subst k. injection Hget as ->.
    rewrite notes_of_closing_same.
    assert (Hrest : forall d : dict KeyState,
               ~ In m (keys d) ->
               notes_of m (flat_map (closing_notes min_duration final_time) d) = []).
    { induction d as [|[k' s''] d IHd]; cbn [flat_map keys map fst]; auto.
      intros Hn. rewrite notes_of_app, IHd by (intros Hin; apply Hn; now right).
      rewrite notes_of_closing_other; auto.
      intros ->. apply Hn. now left. }
    rewrite Hrest by assumption. apply app_nil_r.
  - apply Z.eqb_neq in E. rewrite notes_of_closing_other by auto.
    cbn [app]. auto.
Qed.

(** ** A scripted run *)

(** C3.  The stream lit, lit, lit, unlit, unlit, unlit for key 60 at
    30 fps from time 0, on the default geometry: exactly one note comes
    out, it starts at 0, and its end, start + duration, is the time of the
    frame where the unlit count reaches 2 (frame 4) minus (2-1)/30, which
    is the time of the first unlit frame (frame 3). *)
Theorem debounce_six_frames :
  forall (h : Hand) (frame_count key_y : Z),
  exists self e,
    __init__ (mkCapture 30 frame_count 1276 720
                [lit h; lit h; lit h; unlit; unlit; unlit]) key_y None
      = Ok self /\
    extract_with (scripted 60) self default_min_duration 0 = Ok [e] /\
    midi e = 60 /\
    note_hand e = Some h /\
    (start e == 0)%Q /\
    (start e + duration e ==
       frame_time self 4 - inject_Z (release_debounce_frames self - 1) / fps self)%Q /\
    (start e + duration e == frame_time self 3)%Q.
Proof.
  intros h frame_count key_y. eexists. eexists.
  split; [reflexivity|].
  split; [destruct h; vm_compute; reflexivity|].
  repeat split.
Qed.

(** ** Notes still held when the stream ends *)

(** C2, as stated, fails: three frames at 30 fps, all lit for key 60, and a
    capture that reports its three frames.  The last frame carries the
    time 2/30, and the closing note ends at 3/30. *)
Lemma held_note_ends_after_last_frame :
  exists self e,
    __init__ (mkCapture 30 3 1276 720 [lit left; lit left; lit left]) 500 None
      = Ok self /\
    extract_with (scripted 60) self default_min_duration 0 = Ok [e] /\
    (start e + duration e == frame_time self (total_frames self))%Q /\
    ~ (start e + duration e == frame_time self 2)%Q.
Proof.
  eexists. eexists. split; [reflexivity|].
  split; [vm_compute; reflexivity|].
  split; [reflexivity|].
  intros H. vm_compute in H. discriminate H.
Qed.

(** ** Start times and the skip offset *)




(** ** The first lit frame of a press *)

Lemma read_loop_app {Frame} (is_key_lit_of : Frame -> Z -> bool * option Hand)
    self min_duration (l1 l2 : list Frame) n acc :
  read_loop is_key_lit_of self min_duration (l1 ++ l2) n acc =
  (acc1 <- read_loop is_key_lit_of self min_duration l1 n acc ;;
   read_loop is_key_lit_of self min_duration l2 (n + Z.of_nat (length l1)) acc1).
Proof.
  revert n acc. induction l1 as [|f l1 IH]; intros n acc.
  - simpl. now rewrite Z.add_0_r.
  - cbn [app read_loop length].
    destruct (process_frame is_key_lit_of self min_duration n f acc) as [acc1|e];
      cbn [bind]; [|reflexivity].
    rewrite IH. now replace (n + 1 + Z.of_nat (length l1))
                      with (n + Z.of_nat (S (length l1))) by lia.
Qed.

Section PressOrigin.

Context {Frame : Type}.
Variable is_key_lit_of : Frame -> Z -> bool * option Hand.
Variable self : SynthesiaExtractor Frame.
Variable min_duration : Q.
Variable start_frame : Z.
Variable frames : list Frame.

Hypothesis keys_unique : NoDup (keys (note_positions self)).

Local Abbreviation begins :=
  (press_begins is_key_lit_of self min_duration start_frame frames).

(** Notes and active states all go back to the first lit frame of a
    press. *)
Local Abbreviation origin_inv :=
  (loop_inv (fun m s => active s = true ->
                        exists t, start_time s = Some t /\ begins m t (hand s))
            (fun e => begins (midi e) (start e) (note_hand e))).

Section OneFrame.

Variable pre : list Frame.
Variable frame : Frame.
Variable rest : list Frame.
Variable ns0 : dict KeyState.
Variable notes0 : list Note.

Hypothesis split_frames : frames = pre ++ frame :: rest.
Hypothesis ran_pre :
  read_loop is_key_lit_of self min_duration pre start_frame ([], [])
    = Ok (ns0, notes0).

Lemma keys_keep_origin todo acc acc' :
  NoDup todo ->
  (forall m, In m todo -> get m (fst acc) = get m ns0) ->
  origin_inv acc ->
  for_each (process_key is_key_lit_of self min_duration
              (frame_time self (start_frame + Z.of_nat (length pre))) frame)
           todo acc = Ok acc' ->
  origin_inv acc'.
Proof.
  revert acc. induction todo as [|k todo IH]; intros acc Hnd Hsame Hinv;
    cbn [for_each].
  - now intros [= <-].
  - destruct (process_key _ _ _ _ _ k acc) as [acc1|e] eqn:E; cbn [bind];
      [|discriminate].
    apply NoDup_cons_iff in Hnd. destruct Hnd as [Hnin Hnd'].
    destruct acc as [ns notes], acc1 as [ns1 notes1].
    pose proof E as E'. apply process_key_inv in E'.
    destruct E' as (state' & emitted & Hstep & -> & Hget & Hother & Hnd1).
    destruct Hinv as (HP & HN & Hndk). cbn [fst snd] in *.
    assert (Hactive : active (state_of k ns) = true ->
              exists t, start_time (state_of k ns) = Some t /\
                        begins k t (hand (state_of k ns))).
    { unfold state_of. destruct (get k ns) as [s|] eqn:Eg; [eauto|discriminate]. }
    apply IH; auto.
    + intros m Hm. cbn [fst]. rewrite Hother.
      * apply Hsame. now right.
      * intros ->. contradiction.
    + repeat split; cbn [fst snd]; auto.
      * intros m s Hm Ha. destruct (Z.eq_dec m k) as [->|Hne].
        -- rewrite Hget in Hm. injection Hm as <-.
           destruct (key_step_state _ _ _ _ _ _ _ _ Hstep Ha)
             as [(Ha' & -> & ->)|(Ha' & Hv & -> & ->)]; [auto|].
           eexists. split; [reflexivity|].
           exists pre, frame, rest. split; [assumption|]. split.
           { destruct (is_key_lit_of frame k) as [b hh]. simpl in Hv.
             now subst b. }
           split; [reflexivity|].
           exists ns0, notes0. split; [assumption|].
           rewrite <- (Hsame k (or_introl eq_refl)).
           unfold state_of in Ha'. now destruct (get k ns).
        -- rewrite Hother in Hm by assumption. eauto.
      * apply Forall_app. split; [assumption|].
        destruct (key_step_emitted _ _ _ _ _ _ _ _ Hstep)
          as [->|(st & Ha & Hst & _ & _ & _ & ->)]; constructor; [|constructor].
        cbn [midi start note_hand].
        destruct (Hactive Ha) as (t & Ht & Hb). rewrite Hst in Ht.
        now injection Ht as <-.
Qed.

Lemma frame_keeps_origin acc1 :
  origin_inv (ns0, notes0) ->
  process_frame is_key_lit_of self min_duration
    (start_frame + Z.of_nat (length pre)) frame (ns0, notes0) = Ok acc1 ->
  origin_inv acc1.
Proof.
  intros Hinv. unfold process_frame.
  destruct (Qeq_bool (fps self) 0); [discriminate|].
  destruct (trunc (fps self * 20) =? 0); [discriminate|].
  apply keys_keep_origin; auto.
Qed.

End OneFrame.

Lemma read_loop_keeps_origin rest pre acc0 acc :
  frames = pre ++ rest ->
  read_loop is_key_lit_of self min_duration pre start_frame ([], []) = Ok acc0 ->
  origin_inv acc0 ->
  read_loop is_key_lit_of self min_duration rest
    (start_frame + Z.of_nat (length pre)) acc0 = Ok acc ->
  origin_inv acc.
Proof.
  revert pre acc0. induction rest as [|frame rest IH]; intros pre acc0 Hsplit Hpre Hinv.
  - cbn [read_loop]. now intros [= <-].
  - cbn [read_loop].
    destruct (process_frame _ _ _ _ frame acc0) as [acc1|e] eqn:E; cbn [bind];
      [|discriminate].
    destruct acc0 as [ns0 notes0]. intros Hrest.
    apply (IH (pre ++ [frame]) acc1).
    + now rewrite <- app_assoc.
    + rewrite read_loop_app, Hpre. cbn [bind read_loop]. now rewrite E.
    + eapply frame_keeps_origin; eauto.
    + rewrite length_app. cbn [length].
      now replace (start_frame + Z.of_nat (length pre + 1))
        with (start_frame + Z.of_nat (length pre) + 1) by lia.
Qed.

Lemma notes_have_origin ns notes final_time :
  read_loop is_key_lit_of self min_duration frames start_frame ([], [])
    = Ok (ns, notes) ->
  forall e,
    In e (notes ++ flat_map (closing_notes min_duration final_time) ns) ->
    begins (midi e) (start e) (note_hand e).
Proof.
  intros Hrun.
  assert (Hinv : origin_inv (ns, notes)).
  { apply (read_loop_keeps_origin frames [] ([], [])); auto.
    - apply loop_inv_init.
    - cbn [length]. now rewrite Z.add_0_r. }
  destruct Hinv as (HP & HN & Hnd). cbn [fst snd] in *.
  intros e He. apply in_app_or in He. destruct He as [He|He].
  - rewrite Forall_forall in HN. auto.
  - apply in_flat_map in He. destruct He as ([m s] & Hin & He).
    destruct (closing_notes_cases min_duration final_time m s)
      as [Hc|(st & Ha & Hst & _ & Hc)]; rewrite Hc in He; [destruct He|].
    destruct He as [<-|[]]. cbn [midi start note_hand].
    destruct (HP m s (in_get _ _ _ Hnd Hin) Ha) as (t & Ht & Hb).
    rewrite Hst in Ht. now injection Ht as <-.
Qed.

End PressOrigin.

(** ** The geometry table as a sequence of assignments *)

Lemma store_app np l1 l2 : store np (l1 ++ l2) = store (store np l1) l2.
Proof. apply fold_left_app. Qed.

Lemma store_keys_unique l np : NoDup (keys np) -> NoDup (keys (store np l)).
Proof.
  revert np. induction l as [|[k g] l IH]; intros np H; simpl; auto.
  apply IH. now apply NoDup_keys_set.
Qed.

(** The last assignment to a key wins; when all of them agree the order
    does not matter. *)
Lemma store_agreeing k g l np :
  (forall g', In (k, g') l -> g' = g) ->
  In (k, g) l \/ get k np = Some g ->
  get k (store np l) = Some g.
Proof.
  revert np. induction l as [|[k1 g1] l IH]; intros np Hall Hex; simpl.
  - destruct Hex as [[]|H]; assumption.
  - apply IH.
    + intros g' Hin. apply Hall. now right.
    + destruct (Z.eq_dec k k1) as [<-|Hne].
      * right. rewrite get_set_same. f_equal. apply Hall. now left.
      * destruct Hex as [[H|H]|H]; auto.
        -- injection H as -> ->. contradiction.
        -- right. now rewrite get_set_other.
Qed.

Lemma whites_stored w c_midi c_left ws np :
  for_each (set_white (Fin w) c_midi c_left) ws np =
  Ok (store np (map (white_entry w c_midi c_left) ws)).
Proof.
  revert np. induction ws as [|[i s] ws IH]; intros np; simpl; auto.
Qed.

Lemma blacks_stored w c_midi c_left bs np :
  for_each (set_black (Fin w) c_midi c_left) bs np =
  Ok (store np (map (black_entry w c_midi c_left) bs)).
Proof.
  revert np. induction bs as [|[[s l] r] bs IH]; intros np; simpl; auto.
Qed.

Lemma octaves_stored w calib np :
  for_each (build_octave (Fin w)) calib np =
  Ok (store np (flat_map (octave_entries w) calib)).
Proof.
  revert np. induction calib as [|[c_midi c_left] calib IH]; intros np;
    cbn [for_each flat_map]; auto.
  unfold build_octave. rewrite whites_stored. cbn [bind].
  rewrite blacks_stored. cbn [bind]. rewrite IH.
  unfold octave_entries. cbn [fst snd]. now rewrite !store_app.
Qed.

Lemma top_stored w c7_left np :
  for_each (set_top (Fin w) c7_left) (enumerate white_positions) np =
  Ok (store np (top_entries w c7_left)).
Proof. reflexivity. Qed.

Lemma build_stored w calib c7_left np :
  get 96 calib = Some c7_left ->
  _build_note_positions calib (Fin w) np =
  Ok (store np (table_entries w calib c7_left)).
Proof.
  intros H96. unfold _build_note_positions, getitem.
  rewrite octaves_stored, H96. cbn [bind]. rewrite top_stored.
  unfold table_entries. now rewrite store_app.
Qed.

Lemma or_default_nonempty cp : exists e d, or_default cp = e :: d.
Proof.
  destruct cp as [[|e d]|]; simpl; eauto; unfold default_c_positions; eauto.
Qed.

(** A successful [__init__] has a finite white-key width and a calibrated
    C7, and its table is the stored sequence of assignments. *)
Lemma init_inv {Frame} (video : Capture Frame) key_y cp self :
  __init__ video key_y cp = Ok self ->
  c_left_edge self = or_default cp /\
  exists w c7_left,
    white_key_width self = Fin w /\
    get 96 (c_left_edge self) = Some c7_left /\
    note_positions self = store [] (table_entries w (c_left_edge self) c7_left).
Proof.
  unfold __init__.
  destruct (octave_widths (or_default cp) (sorted (keys (or_default cp))))
    as [ws|e]; cbn [bind]; [|discriminate].
  destruct (fdiv_const (np_mean ws) 7) as [w|] eqn:Ew.
  - destruct (get 96 (or_default cp)) as [c7|] eqn:E96.
    + rewrite (build_stored w _ c7 [] E96). cbn [bind].
      intros [= <-]. cbn. split; [reflexivity|].
      exists w, c7. auto.
    + unfold _build_note_positions, getitem.
      rewrite octaves_stored, E96. discriminate.
  - destruct (or_default_nonempty cp) as ([c l] & d & ->).
    discriminate.
Qed.

Lemma init_keys_unique {Frame} (video : Capture Frame) key_y cp self :
  __init__ video key_y cp = Ok self -> NoDup (keys (note_positions self)).
Proof.
  intros H. apply init_inv in H.
  destruct H as (_ & w & c7 & _ & _ & ->).
  apply store_keys_unique. constructor.
Qed.

(** ** Keys of one octave *)

Ltac in_list H :=
  repeat (destruct H as [H|H]; [injection H as ? ?; subst|]);
  try (now destruct H).

Lemma white_offsets i s :
  In (i, s) (enumerate white_positions) ->
  0 <= i < 7 /\ 0 <= s < 12 /\
  (forall i', In (i', s) (enumerate white_positions) -> i' = i) /\
  (forall l r, ~ In (s, l, r) black_info).
Proof.
  intros H. cbn in H. in_list H.
  all: repeat split; try lia.
  all: try (intros i' H'; cbn in H';
            repeat (destruct H' as [H'|H']; [inversion H'; lia|]);
            now destruct H').
  all: intros l r H'; cbn in H';
    repeat (destruct H' as [H'|H']; [discriminate H'|]); destruct H'.
Qed.

Lemma black_offsets s l r :
  In (s, l, r) black_info ->
  0 <= s < 12 /\ 0 <= l /\ r = l + 1 /\ r < 7 /\
  (forall l' r', In (s, l', r') black_info -> l' = l).
Proof.
  intros H. cbn in H.
  repeat (destruct H as [H|H]; [injection H as ? ? ?; subst|]);
    try (now destruct H).
  all: repeat split; try lia.
  all: intros l' r' H'; cbn in H';
    repeat (destruct H' as [H'|H']; [inversion H'; lia|]);
    destruct H'.
Qed.

(** An entry of an octave, seen from the octave's C. *)
Lemma octave_entry_cases w c l k g :
  In (k, g) (octave_entries w (c, l)) ->
  (exists i s, In (i, s) (enumerate white_positions) /\ k = c + s /\
               g = snd (white_entry w 0 l (i, s))) \/
  (exists s lw r, In (s, lw, r) black_info /\ k = c + s /\
                  g = snd (black_entry w 0 l (s, lw, r))).
Proof.
  unfold octave_entries. cbn [fst snd]. intros H.
  apply in_app_or in H. destruct H as [H|H]; apply in_map_iff in H.
  - destruct H as ([i s] & He & Hin). injection He as <- <-.
    left. exists i, s. auto.
  - destruct H as ([[s lw] r] & He & Hin). injection He as <- <-.
    right. exists s, lw, r. auto.
Qed.

Lemma octave_to_offset w c l k g :
  In (k, g) (octave_entries w (c, l)) ->
  0 <= k - c < 12 /\ In (k - c, g) (octave_entries w (0, l)).
Proof.
  intros H. apply octave_entry_cases in H.
  destruct H as [(i & s & Hin & -> & ->)|(s & lw & r & Hin & -> & ->)].
  - replace (c + s - c) with s by lia. split.
    + apply white_offsets in Hin. lia.
    + apply in_or_app. left. apply in_map_iff. exists (i, s). auto.
  - replace (c + s - c) with s by lia. split.
    + apply black_offsets in Hin. lia.
    + apply in_or_app. right. apply in_map_iff. exists (s, lw, r). auto.
Qed.

Lemma offset_to_octave w c l s g :
  In (s, g) (octave_entries w (0, l)) ->
  In (c + s, g) (octave_entries w (c, l)).
Proof.
  intros H. apply octave_entry_cases in H.
  destruct H as [(i & s' & Hin & -> & ->)|(s' & lw & r & Hin & -> & ->)].
  - apply in_or_app. left. apply in_map_iff. exists (i, s'). auto.
  - apply in_or_app. right. apply in_map_iff. exists (s', lw, r). auto.
Qed.

(** Within an octave a semitone has one geometry. *)
Lemma octave_functional w l s g g' :
  In (s, g) (octave_entries w (0, l)) ->
  In (s, g') (octave_entries w (0, l)) ->
  g = g'.
Proof.
  intros H H'. apply octave_entry_cases in H, H'.
  destruct H as [(i & s1 & Hin & Hs & ->)|(s1 & lw & r & Hin & Hs & ->)];
    destruct H' as [(i' & s2 & Hin' & Hs' & ->)|(s2 & lw' & r' & Hin' & Hs' & ->)];
    cbn [Z.add] in Hs, Hs'; subst s1 s2.
  - apply white_offsets in Hin. destruct Hin as (_ & _ & Hi & _).
    now rewrite (Hi i' Hin').
  - apply white_offsets in Hin. destruct Hin as (_ & _ & _ & Hb).
    now destruct (Hb lw' r').
  - apply white_offsets in Hin'. destruct Hin' as (_ & _ & _ & Hb).
    now destruct (Hb lw r).
  - apply black_offsets in Hin. destruct Hin as (_ & _ & _ & _ & Hl).
    unfold black_entry. cbn [fst snd]. now rewrite (Hl lw' r' Hin').
Qed.

Lemma top_in_octave w c7_left k g :
  In (k, g) (top_entries w c7_left) ->
  In (k, g) (octave_entries w (96, c7_left)).
Proof.
  intros H. apply in_or_app. left. exact H.
Qed.

Lemma same_octave c c' s :
  c mod 12 = 0 -> c' mod 12 = 0 -> 0 <= s < 12 -> 0 <= c + s - c' < 12 ->
  c' = c.
Proof.
  intros Hc Hc' Hs Hs'.
  pose proof (Z.div_mod c 12). pose proof (Z.div_mod c' 12). lia.
Qed.

(** What the table holds for a semitone of a calibrated octave. *)
Lemma table_lookup w calib c7_left c l s g :
  calibration_contract calib ->
  get 96 calib = Some c7_left ->
  In (c, l) calib ->
  In (s, g) (octave_entries w (0, l)) ->
  get (c + s) (store [] (table_entries w calib c7_left)) = Some g.
Proof.
  intros [Hnd Hall] H96 Hin Hs.
  rewrite Forall_forall in Hall.
  destruct (octave_to_offset _ _ _ _ _ Hs) as [Hrange _].
  assert (Hoct : forall c' l' g',
             In (c', l') calib ->
             In (c + s, g') (octave_entries w (c', l')) -> g' = g).
  { intros c' l' g' Hin' Hg'.
    apply octave_to_offset in Hg'. destruct Hg' as [Hr' Hg'].
    assert (c' = c).
    { apply (same_octave c c' s); auto; try lia.
      - apply (Hall _ Hin).
      - apply (Hall _ Hin'). }
    subst c'.
    assert (l' = l).
    { apply (in_get _ _ _ Hnd) in Hin, Hin'. congruence. }
    subst l'. replace (c + s - c) with s in Hg' by lia.
    eapply octave_functional; eauto. }
  apply store_agreeing.
  - intros g' Hg'. unfold table_entries in Hg'. apply in_app_or in Hg'.
    destruct Hg' as [Hg'|Hg'].
    + apply in_flat_map in Hg'. destruct Hg' as ([c' l'] & Hin' & Hg').
      eauto.
    + apply top_in_octave in Hg'. apply get_in in H96. eauto.
  - left. unfold table_entries. apply in_or_app. left.
    apply in_flat_map. exists (c, l). split; [assumption|].
    now apply offset_to_octave.
Qed.

(** ** Truncated positions *)

Lemma trunc_step (a b : Q) : (0 <= a)%Q -> (a + 1 <= b)%Q -> trunc a < trunc b.
Proof.
  intros Ha Hab.
  assert (Hfloor : forall q, (0 <= q)%Q -> trunc q = Qfloor q).
  { intros [n d] Hq. unfold trunc, Qfloor. cbn [Qnum Qden].
    apply Z.quot_div_nonneg; [|lia].
    unfold Qle in Hq. cbn in Hq. lia. }
  rewrite (Hfloor a), (Hfloor b) by lra.
  assert (H : (inject_Z (Qfloor a + 1) <= b)%Q).
  { rewrite inject_Z_plus. pose proof (Qfloor_le a).
    change (inject_Z 1) with 1%Q. lra. }
  apply Qfloor_resp_le in H. rewrite Qfloor_Z in H. lia.
Qed.

Lemma black_between (c l : Z) (w : Q) :
  0 <= c -> 0 <= l -> (2 <= w)%Q ->
  trunc (inject_Z c + (inject_Z l + (1 # 2)) * w)
  < trunc (inject_Z c + inject_Z (l + 1) * w)
  < trunc (inject_Z c + (inject_Z (l + 1) + (1 # 2)) * w).
Proof.
  intros Hc Hl Hw.
  assert (Hc' : (0 <= inject_Z c)%Q)
    by (change 0%Q with (inject_Z 0); now rewrite <- Zle_Qle).
  assert (Hl' : (0 <= inject_Z l)%Q)
    by (change 0%Q with (inject_Z 0); now rewrite <- Zle_Qle).
  assert (Hp : (0 <= inject_Z l * w)%Q) by (apply Qmult_le_0_compat; lra).
  rewrite inject_Z_plus. change (inject_Z 1) with 1%Q.
  set (L := inject_Z l) in *. set (C := inject_Z c) in *.
  split; apply trunc_step.
  - setoid_replace ((L + (1 # 2)) * w)%Q with (L * w + (1 # 2) * w)%Q by ring. lra.
  - setoid_replace ((L + (1 # 2)) * w)%Q with (L * w + (1 # 2) * w)%Q by ring.
    setoid_replace ((L + 1) * w)%Q with (L * w + w)%Q by ring. lra.
  - setoid_replace ((L + 1) * w)%Q with (L * w + w)%Q by ring. lra.
  - setoid_replace ((L + 1 + (1 # 2)) * w)%Q with (L * w + (3 # 2) * w)%Q by ring.
    setoid_replace ((L + 1) * w)%Q with (L * w + w)%Q by ring. lra.
Qed.

Lemma store_get_in k g l np :
  get k (store np l) = Some g -> In (k, g) l \/ get k np = Some g.
Proof.
  revert np. induction l as [|[k1 g1] l IH]; intros np; simpl; auto.
  intros H. apply IH in H. destruct H as [H|H]; auto.
  cbn [fst snd] in H. destruct (Z.eq_dec k k1) as [->|Hne].
  - rewrite get_set_same in H. injection H as ->. auto.
  - rewrite get_set_other in H by assumption. auto.
Qed.

(** ** Black keys and their white neighbours *)

(** C8, as stated, fails when the white keys are narrower than two pixels:
    with C6 at 0 and C7 at 7 the white-key width is 1, and the black key 85
    and its right white neighbour 86 are both stored at x = 1. *)
Lemma narrow_keys_black_meets_white :
  exists self xb xr,
    __init__ (mkCapture 30 0 1276 720 (@nil Image)) 500
             (Some [(84, 0); (96, 7)]) = Ok self /\
    get 85 (note_positions self) = Some (mkGeom xb true) /\
    get 86 (note_positions self) = Some (mkGeom xr false) /\
    ~ xb < xr.
Proof.
  eexists. exists 1, 1. split; [reflexivity|].
  split; [reflexivity|]. split; [reflexivity|]. lia.
Qed.

(** C8, amended.  Let the calibration map C pitches to non-negative left
    edges and let the white-key width be at least 2 pixels, as with the
    default calibration.  Then every black key of the table is the key of a
    semitone [s] of a calibrated octave, with [(s, l, r)] in [black_info];
    the pitches just below and just above it are the white keys of indices
    [l] and [r] of that octave; and its stored x lies strictly between
    theirs. *)
Theorem black_key_between_white_neighbours :
  forall (Frame : Type) (video : Capture Frame) (key_y : Z)
         (c_positions : option (dict Z)) (self : SynthesiaExtractor Frame)
         (w : Q) (k xb : Z),
    __init__ video key_y c_positions = Ok self ->
    calibration_contract (c_left_edge self) ->
    white_key_width self = Fin w ->
    (2 <= w)%Q ->
    get k (note_positions self) = Some (mkGeom xb true) ->
    exists c_midi c_left s l r xl xr,
      In (c_midi, c_left) (c_left_edge self) /\
      In (s, l, r) black_info /\
      k = c_midi + s /\
      k - 1 = c_midi + nth (Z.to_nat l) white_positions 0 /\
      k + 1 = c_midi + nth (Z.to_nat r) white_positions 0 /\
      get (k - 1) (note_positions self) = Some (mkGeom xl false) /\
      get (k + 1) (note_positions self) = Some (mkGeom xr false) /\
      xl < xb < xr.
Proof.
  intros Frame video key_y cp self w k xb Hinit Hc Hw Hw2 Hk.
  apply init_inv in Hinit.
  destruct Hinit as (_ & w' & c7 & Hw' & H96 & Hnp).
  rewrite Hw in Hw'. injection Hw' as <-.
  rewrite Hnp in *. clear Hnp.
  set (calib := c_left_edge self) in *.
  (* where the black entry comes from *)
  apply store_get_in in Hk. destruct Hk as [Hk|Hk]; [|discriminate].
  assert (Hoct : exists c l, In (c, l) calib /\
                             In (k, mkGeom xb true) (octave_entries w (c, l))).
  { unfold table_entries in Hk. apply in_app_or in Hk. destruct Hk as [Hk|Hk].
    - apply in_flat_map in Hk. destruct Hk as ([c l] & Hin & Hk). eauto.
    - apply top_in_octave in Hk. apply get_in in H96. eauto. }
  destruct Hoct as (c & cl & Hin & Hent).
  apply octave_entry_cases in Hent.
  destruct Hent as [(i & s & _ & _ & Hg)|(s & l & r & Hb & -> & Hg)];
    [discriminate Hg|].
  unfold black_entry in Hg. cbn [fst snd] in Hg. injection Hg as ->.
  destruct (black_offsets _ _ _ Hb) as (Hs & Hl & -> & Hr & _).
  assert (Hleft : 0 <= cl).
  { destruct Hc as [_ Hall]. rewrite Forall_forall in Hall.
    apply (Hall _ Hin). }
  (* the two white neighbours *)
  assert (Hwl : In (l, s - 1) (enumerate white_positions) /\
                In (l + 1, s + 1) (enumerate white_positions) /\
                nth (Z.to_nat l) white_positions 0 = s - 1 /\
                nth (Z.to_nat (l + 1)) white_positions 0 = s + 1).
  { cbn in Hb.
    repeat (destruct Hb as [Hb|Hb]; [injection Hb as <- <-; cbn; tauto|]).
    destruct Hb. }
  destruct Hwl as (Hil & Hir & Hnl & Hnr).
  exists c, cl, s, l, (l + 1).
  exists (trunc (inject_Z cl + (inject_Z l + (1 # 2)) * w)),
         (trunc (inject_Z cl + (inject_Z (l + 1) + (1 # 2)) * w)).
  split; [assumption|]. split; [assumption|]. split; [reflexivity|].
  split; [lia|]. split; [lia|]. split; [|split].
  - replace (c + s - 1) with (c + (s - 1)) by lia.
    apply (table_lookup w calib c7 c cl); auto.
    apply in_or_app. left. apply in_map_iff. exists (l, s - 1). auto.
  - replace (c + s + 1) with (c + (s + 1)) by lia.
    apply (table_lookup w calib c7 c cl); auto.
    apply in_or_app. left. apply in_map_iff. exists (l + 1, s + 1). auto.
  - apply black_between; auto.
Qed.

Lemma black_key_between_white_neighbours_witness :
  exists self,
    __init__ (mkCapture 30 0 1276 720 (@nil Image)) 500 None = Ok self /\
    exists xl xr,
      get 60 (note_positions self) = Some (mkGeom xl false) /\
      get 61 (note_positions self) = Some (mkGeom 591 true) /\
      get 62 (note_positions self) = Some (mkGeom xr false) /\
      xl < 591 < xr.
Proof.
  eexists. split; [reflexivity|].
  match goal with
  | |- exists xl xr, get _ (note_positions ?s) = _ /\ _ =>
      destruct (black_key_between_white_neighbours Image
                  (mkCapture 30 0 1276 720 (@nil Image)) 500 None s
                  (1035 # 42) 61 591 eq_refl)
        as (c & cl & sm & l & r & xl & xr & _ & _ & _ & _ & _ & Hl & Hr & Hlt)
  end.
  - split.
    + cbn. repeat (constructor; [cbn; lia|]). constructor.
    + cbn. repeat (constructor; [cbn; lia|]). constructor.
  - reflexivity.
  - vm_compute. discriminate.
  - reflexivity.
  - exists xl, xr. split; [exact Hl|]. split; [reflexivity|].
    split; [exact Hr|exact Hlt].
Defined.

(** ** A press keeps its first lit frame *)



(** * Further properties *)

(** ** Outcome of the construction *)

Lemma insert_sorted_In k a l : In k (insert_sorted a l) <-> k = a \/ In k l.
Proof.
  induction l as [|h t IH]; simpl.
  - intuition.
  - destruct (a <=? h); simpl; rewrite ?IH; intuition.
Qed.

Lemma sorted_In k l : In k (sorted l) <-> In k l.
Proof.
  induction l as [|a l IH]; simpl; [tauto|].
  rewrite insert_sorted_In, IH. intuition.
Qed.

Lemma insert_sorted_length a l :
  length (insert_sorted a l) = S (length l).
Proof.
  induction l as [|h t IH]; simpl; auto.
  destruct (a <=? h); simpl; auto.
Qed.

Lemma sorted_length l : length (sorted l) = length l.
Proof.
  induction l as [|a l IH]; simpl; auto.
  now rewrite insert_sorted_length, IH.
Qed.

Lemma in_keys_get {V} k (d : dict V) :
  In k (keys d) <-> exists v, get k d = Some v.
Proof.
  induction d as [|[k' v'] d IH]; simpl.
  - split; [intros []|intros [v H]; discriminate].
  - destruct (k =? k') eqn:E.
    + apply Z.eqb_eq in E. subst. split; eauto.
    + apply Z.eqb_neq in E. rewrite <- IH. split; [|tauto].
      intros [H|H]; [congruence|assumption].
Qed.

Lemma octave_widths_ok (d : dict Z) (L : list Z) :
  (forall k, In k L -> In k (keys d)) ->
  exists ws, octave_widths d L = Ok ws /\ length ws = pred (length L).
Proof.
  induction L as [|a L IH]; intros H; [exists []; auto|].
  destruct L as [|b L]; [exists []; auto|].
  destruct IH as (ws & Hws & Hlen); [intros k Hk; apply H; now right|].
  destruct (proj1 (in_keys_get b d)) as [hi Hhi]; [apply H; simpl; auto|].
  destruct (proj1 (in_keys_get a d)) as [lo Hlo]; [apply H; simpl; auto|].
  exists ((hi - lo) :: ws). split.
  - change (octave_widths d (a :: b :: L))
      with (hi' <- getitem b d ;; lo' <- getitem a d ;;
            ws' <- octave_widths d (b :: L) ;; Ok ((hi' - lo') :: ws')).
    unfold getitem. rewrite Hhi, Hlo, Hws. reflexivity.
  - simpl in *. now rewrite Hlen.
Qed.

Lemma init_unfold {Frame} (video : Capture Frame) key_y cp ws :
  octave_widths (or_default cp) (sorted (keys (or_default cp))) = Ok ws ->
  __init__ video key_y cp =
  (np <- _build_note_positions (or_default cp)
           (fdiv_const (np_mean ws) 7) [] ;;
   Ok {| cap := video;
         fps := cap_fps video;
         total_frames := cap_frame_count video;
         width := cap_frame_width video;
         height := cap_frame_height video;
         key_sample_y := key_y;
         sample_width := 7;
         sample_height := 7;
         lit_threshold := 3 # 10;
         release_debounce_frames := 2;
         c_left_edge := or_default cp;
         octave_width := np_mean ws;
         white_key_width := fdiv_const (np_mean ws) 7;
         note_positions := np |}).
Proof.
  intros H. unfold __init__. rewrite H. reflexivity.
Qed.

(** X1.  What the constructor does with a calibration [c] (the given
    mapping, or the default one when it is omitted or empty): with a single
    point it raises [ValueError]; with two or more points and no entry for
    C7 (pitch 96) it raises [KeyError]; with two or more points including
    C7 it succeeds and keeps [c] as [c_left_edge]. *)
Theorem init_outcome :
  forall (Frame : Type) (video : Capture Frame) (key_y : Z)
         (c_positions : option (dict Z)),
    (length (or_default c_positions) = 1%nat ->
       __init__ video key_y c_positions = Raise ValueError) /\
    ((2 <= length (or_default c_positions))%nat ->
     get 96 (or_default c_positions) = None ->
       __init__ video key_y c_positions = Raise KeyError) /\
    ((2 <= length (or_default c_positions))%nat ->
     forall c7_left, get 96 (or_default c_positions) = Some c7_left ->
       exists self,
         __init__ video key_y c_positions = Ok self /\
         c_left_edge self = or_default c_positions).
Proof.
  intros Frame video key_y cp.
  set (calib := or_default cp).
  destruct (octave_widths_ok calib (sorted (keys calib))) as (ws & Hws & Hlen).
  { intros k. now rewrite sorted_In. }
  rewrite sorted_length in Hlen. unfold keys in Hlen. rewrite length_map in Hlen.
  pose proof (init_unfold video key_y cp ws Hws) as Hinit. fold calib in Hinit.
  split; [|split].
  - intros H1. rewrite Hinit.
    destruct calib as [|[c l] [|e calib]]; try discriminate H1.
    destruct ws; [reflexivity|discriminate Hlen].
  - intros H2 H96. rewrite Hinit.
    destruct ws as [|d ws]; [simpl in Hlen; lia|].
    cbn [np_mean fdiv_const].
    unfold _build_note_positions, getitem.
    rewrite octaves_stored, H96. reflexivity.
  - intros H2 c7 H96. rewrite Hinit.
    destruct ws as [|d ws]; [simpl in Hlen; lia|].
    cbn [np_mean fdiv_const].
    rewrite (build_stored _ calib c7 [] H96). cbn [bind].
    eexists. split; reflexivity.
Qed.

Lemma init_outcome_witness :
  __init__ (mkCapture 30 0 1276 720 (@nil Image)) 500
           (Some [(24, 51); (36, 224)]) = Raise KeyError.
Proof.
  apply (proj1 (proj2 (init_outcome Image (mkCapture 30 0 1276 720 [])
                         500 (Some [(24, 51); (36, 224)]))));
    [simpl; lia | reflexivity].
Defined.

(** ** The octave width *)

Lemma insert_sorted_strongly a l :
  StronglySorted Z.le l -> StronglySorted Z.le (insert_sorted a l).
Proof.
  induction l as [|h t IH]; intros Hs; simpl.
  - constructor; constructor.
  - destruct (a <=? h) eqn:E.
    + apply Z.leb_le in E. constructor; [assumption|].
      apply StronglySorted_inv in Hs. destruct Hs as [_ Hall].
      constructor; [assumption|].
      eapply Forall_impl; [|exact Hall]. intros b Hb. cbv beta in Hb. lia.
    + apply Z.leb_gt in E.
      apply StronglySorted_inv in Hs. destruct Hs as [Hs Hall].
      constructor; [auto|].
      apply Forall_forall. intros k Hk. apply insert_sorted_In in Hk.
      destruct Hk as [->|Hk]; [lia|].
      rewrite Forall_forall in Hall. auto.
Qed.

Lemma sorted_strongly l : StronglySorted Z.le (sorted l).
Proof.
  induction l as [|a l IH]; simpl; [constructor|].
  now apply insert_sorted_strongly.
Qed.

Lemma last_cons (b : Z) L a : last (b :: L) a = last L b.
Proof.
  revert a b. induction L as [|c L IH]; intros a b; [reflexivity|].
  change (last (b :: c :: L) a) with (last (c :: L) a).
  now rewrite (IH a c), (IH b c).
Qed.

Lemma strongly_sorted_bounds a L :
  StronglySorted Z.le (a :: L) ->
  forall k, In k (a :: L) -> a <= k <= last L a.
Proof.
  revert a. induction L as [|b L IH]; intros a Hs k Hk.
  - destruct Hk as [<-|[]]. simpl. lia.
  - apply StronglySorted_inv in Hs. destruct Hs as [Hs Hall].
    rewrite Forall_forall in Hall. rewrite last_cons.
    assert (Hb : b <= last L b) by (apply (IH b Hs b); now left).
    destruct Hk as [<-|Hk].
    + specialize (Hall b (or_introl eq_refl)). lia.
    + specialize (Hall k Hk). specialize (IH b Hs k Hk). lia.
Qed.

(** The octave widths telescope. *)
Lemma octave_widths_sum d L :
  forall a ws lo hi,
    octave_widths d (a :: L) = Ok ws ->
    get a d = Some lo -> get (last L a) d = Some hi ->
    sum_Z ws = hi - lo.
Proof.
  induction L as [|b L IH]; intros a ws lo hi Hws Hlo Hhi.
  - cbn in Hws, Hhi. injection Hws as <-. rewrite Hlo in Hhi.
    injection Hhi as <-. simpl. lia.
  - change (octave_widths d (a :: b :: L))
      with (hi' <- getitem b d ;; lo' <- getitem a d ;;
            ws' <- octave_widths d (b :: L) ;; Ok ((hi' - lo') :: ws')) in Hws.
    unfold getitem in Hws. rewrite Hlo in Hws.
    destruct (get b d) as [hb|] eqn:Hb; cbn [bind] in Hws; [|discriminate].
    destruct (octave_widths d (b :: L)) as [ws'|e] eqn:Hws'; cbn [bind] in Hws;
      [|discriminate].
    injection Hws as <-. rewrite last_cons in Hhi.
    specialize (IH b ws' hb hi Hws' Hb Hhi).
    cbn [sum_Z fold_right]. fold (sum_Z ws'). lia.
Qed.

(** X2.  After a successful construction the octave width is the distance
    between the left edges of the highest and the lowest calibrated C
    divided by the number of calibration points minus one, and the
    white-key width is a seventh of it: the points in between do not enter
    the result. *)
Theorem octave_width_from_extremes :
  forall (Frame : Type) (video : Capture Frame) (key_y : Z)
         (c_positions : option (dict Z)) (self : SynthesiaExtractor Frame),
    __init__ video key_y c_positions = Ok self ->
    exists kmin kmax lo hi,
      In kmin (keys (c_left_edge self)) /\
      In kmax (keys (c_left_edge self)) /\
      (forall k, In k (keys (c_left_edge self)) -> kmin <= k <= kmax) /\
      get kmin (c_left_edge self) = Some lo /\
      get kmax (c_left_edge self) = Some hi /\
      octave_width self =
        Fin (inject_Z (hi - lo) /
             inject_Z (Z.of_nat (length (c_left_edge self)) - 1)) /\
      white_key_width self =
        Fin (inject_Z (hi - lo) /
             inject_Z (Z.of_nat (length (c_left_edge self)) - 1) / 7).
Proof.
  intros Frame video key_y cp self Hinit.
  set (calib := or_default cp).
  destruct (octave_widths_ok calib (sorted (keys calib))) as (ws & Hws & Hlen).
  { intros k. now rewrite sorted_In. }
  rewrite sorted_length in Hlen. unfold keys in Hlen. rewrite length_map in Hlen.
  rewrite (init_unfold video key_y cp ws Hws) in Hinit. fold calib in Hinit.
  destruct (_build_note_positions calib (fdiv_const (np_mean ws) 7) [])
    as [np|e] eqn:Hb; cbn [bind] in Hinit; [|discriminate].
  injection Hinit as <-. cbn [c_left_edge octave_width white_key_width].
  destruct ws as [|d0 ws0].
  { destruct (or_default_nonempty cp) as ([c l] & rest & Hc).
    fold calib in Hc. rewrite Hc in Hb. discriminate Hb. }
  destruct (sorted (keys calib)) as [|kmin L] eqn:Hsorted.
  { cbn in Hws. discriminate Hws. }
  remember (d0 :: ws0) as ws eqn:Hwsd.
  pose proof (sorted_strongly (keys calib)) as Hss. rewrite Hsorted in Hss.
  pose proof (strongly_sorted_bounds kmin L Hss) as Hbounds.
  assert (Hin : forall k, In k (kmin :: L) <-> In k (keys calib)).
  { intros k. rewrite <- Hsorted. apply sorted_In. }
  assert (Hmin : In kmin (keys calib)) by (apply Hin; now left).
  assert (Hmax : In (last L kmin) (keys calib)).
  { apply Hin. destruct L as [|b L']; [now left|].
    right. rewrite last_cons. clear.
    revert b. induction L' as [|c L' IH]; intros b; [now left|].
    rewrite last_cons. right. apply IH. }
  destruct (proj1 (in_keys_get _ _) Hmin) as [lo Hlo].
  destruct (proj1 (in_keys_get _ _) Hmax) as [hi Hhi].
  pose proof (octave_widths_sum calib L kmin ws lo hi Hws Hlo Hhi) as Hsum.
  exists kmin, (last L kmin), lo, hi.
  split; [assumption|]. split; [assumption|]. split.
  { intros k Hk. apply Hbounds. now apply Hin. }
  split; [assumption|]. split; [assumption|].
  assert (Hn : Z.of_nat (length ws) = Z.of_nat (length calib) - 1).
  { assert (Hl : length ws = S (length ws0)) by (rewrite Hwsd; reflexivity).
    lia. }
  assert (Hmean : np_mean ws =
            Fin (inject_Z (sum_Z ws) / inject_Z (Z.of_nat (length ws))))
    by (rewrite Hwsd; reflexivity).
  rewrite Hmean, Hsum, Hn. split; reflexivity.
Qed.

Lemma octave_width_from_extremes_witness :
  exists self,
    __init__ (mkCapture 30 0 1276 720 (@nil Image)) 500 None = Ok self /\
    exists kmin kmax lo hi,
      (forall k, In k (keys (c_left_edge self)) -> kmin <= k <= kmax) /\
      get kmin (c_left_edge self) = Some lo /\
      get kmax (c_left_edge self) = Some hi /\
      octave_width self =
        Fin (inject_Z (hi - lo) /
             inject_Z (Z.of_nat (length (c_left_edge self)) - 1)).
Proof.
  eexists. split; [reflexivity|].
  match goal with
  | |- exists kmin kmax lo hi, _ /\ get _ (c_left_edge ?s) = _ /\ _ =>
      destruct (octave_width_from_extremes Image
                  (mkCapture 30 0 1276 720 (@nil Image)) 500 None s eq_refl)
        as (kmin & kmax & lo & hi & _ & _ & Hb & Hlo & Hhi & Hw & _)
  end.
  exists kmin, kmax, lo, hi. auto.
Defined.

(** ** Which pitches the table holds *)

Lemma octave_has_semitone w l s :
  0 <= s < 12 -> exists g, In (s, g) (octave_entries w (0, l)).
Proof.
  intros Hs.
  assert (Hw : In s white_positions \/ exists lw r, In (s, lw, r) black_info).
  { assert (H : s = 0 \/ s = 1 \/ s = 2 \/ s = 3 \/ s = 4 \/ s = 5 \/ s = 6 \/
                s = 7 \/ s = 8 \/ s = 9 \/ s = 10 \/ s = 11) by lia.
    unfold white_positions, black_info.
    repeat (destruct H as [->|H]); try subst s; cbn;
      try (left; tauto); right.
    - exists 0, 1. tauto.
    - exists 1, 2. tauto.
    - exists 3, 4. tauto.
    - exists 4, 5. tauto.
    - exists 5, 6. tauto. }
  destruct Hw as [Hw|(lw & r & Hb)].
  - assert (Hi : exists i, In (i, s) (enumerate white_positions)).
    { cbn in Hw. cbn.
      repeat (destruct Hw as [<-|Hw]; [eexists; tauto|]). destruct Hw. }
    destruct Hi as [i Hi]. eexists. apply in_or_app. left.
    apply in_map_iff. exists (i, s). split; [reflexivity|assumption].
  - eexists. apply in_or_app. right.
    apply in_map_iff. exists (s, lw, r). split; [reflexivity|assumption].
Qed.

Lemma get_store_entry w calib c7_left k g :
  get k (store [] (table_entries w calib c7_left)) = Some g ->
  get 96 calib = Some c7_left ->
  exists c l, In (c, l) calib /\ In (k, g) (octave_entries w (c, l)).
Proof.
  intros Hk H96. apply store_get_in in Hk. destruct Hk as [Hk|Hk]; [|discriminate].
  unfold table_entries in Hk. apply in_app_or in Hk. destruct Hk as [Hk|Hk].
  - apply in_flat_map in Hk. destruct Hk as ([c l] & Hin & Hk). eauto.
  - apply top_in_octave in Hk. apply get_in in H96. eauto.
Qed.

Lemma flat_map_length_const {A B} (f : A -> list B) n (l : list A) :
  (forall a, length (f a) = n) -> length (flat_map f l) = (n * length l)%nat.
Proof.
  intros H. induction l as [|a l IH]; simpl; [lia|].
  rewrite length_app, H, IH. lia.
Qed.

Lemma in_range a b t : In t (range a b) <-> a <= t < b.
Proof.
  unfold range. rewrite in_map_iff. split.
  - intros (i & <- & Hi). apply in_seq in Hi. lia.
  - intros Ht. exists (Z.to_nat (t - a)). split; [lia|].
    apply in_seq. lia.
Qed.

Lemma range_length a b : length (range a b) = Z.to_nat (b - a).
Proof. unfold range. now rewrite length_map, length_seq. Qed.

Lemma shifted_range_unique c a b : NoDup (map (Z.add c) (range a b)).
Proof.
  unfold range. rewrite map_map.
  generalize (seq_NoDup (Z.to_nat (b - a)) 0).
  generalize (seq 0 (Z.to_nat (b - a))) as l.
  induction l as [|i l IH]; intros Hnd; cbn [map]; [constructor|].
  apply NoDup_cons_iff in Hnd. destruct Hnd as [Hnin Hnd].
  constructor; auto.
  intros Hin. apply in_map_iff in Hin. destruct Hin as (j & He & Hj).
  assert (j = i) by lia. subst j. contradiction.
Qed.

Lemma octave_pitches_unique (ks : list Z) :
  NoDup ks -> (forall c, In c ks -> c mod 12 = 0) ->
  NoDup (flat_map (fun c => map (Z.add c) (range 0 12)) ks).
Proof.
  induction ks as [|c ks IH]; intros Hnd Hmod; cbn [flat_map]; [constructor|].
  apply NoDup_cons_iff in Hnd. destruct Hnd as [Hnin Hnd].
  apply NoDup_app.
  - apply shifted_range_unique.
  - apply IH; auto. intros c' Hc'. apply Hmod. now right.
  - intros k Hk Hk'. apply in_map_iff in Hk. destruct Hk as (s & <- & Hs).
    apply in_flat_map in Hk'. destruct Hk' as (c' & Hc' & Hk').
    apply in_map_iff in Hk'. destruct Hk' as (s' & He & Hs').
    apply in_range in Hs, Hs'.
    assert (c' = c).
    { apply (same_octave c c' s); auto.
      - apply Hmod. now left.
      - apply Hmod. now right.
      - lia. }
    subst c'. contradiction.
Qed.

(** X3.  Under the calibration contract the table built by [__init__] holds
    exactly the pitches of the calibrated octaves, [c <= k < c + 12] for a
    calibrated C [c], and so has twelve entries per calibration point. *)
Theorem table_covers_calibrated_octaves :
  forall (Frame : Type) (video : Capture Frame) (key_y : Z)
         (c_positions : option (dict Z)) (self : SynthesiaExtractor Frame),
    __init__ video key_y c_positions = Ok self ->
    calibration_contract (c_left_edge self) ->
    (forall k,
        mem k (note_positions self) = true <->
        exists c, In c (keys (c_left_edge self)) /\ c <= k < c + 12) /\
    length (note_positions self) = (12 * length (c_left_edge self))%nat.
Proof.
  intros Frame video key_y cp self Hinit Hc.
  pose proof (init_keys_unique _ _ _ _ Hinit) as Hnd.
  apply init_inv in Hinit. destruct Hinit as (_ & w & c7 & _ & H96 & Hnp).
  set (calib := c_left_edge self) in *.
  assert (Hkeys : forall k,
             In k (keys (note_positions self)) <->
             exists c, In c (keys calib) /\ c <= k < c + 12).
  { intros k. rewrite in_keys_get, Hnp. split.
    - intros [g Hg].
      destruct (get_store_entry _ _ _ _ _ Hg H96) as (c & l & Hin & Hent).
      apply octave_to_offset in Hent. exists c. split; [|lia].
      change c with (fst (c, l)). now apply in_map.
    - intros (c & Hin & Hr). apply in_map_iff in Hin.
      destruct Hin as ([c' l] & Hfst & Hin). cbn in Hfst. subst c'.
      destruct (octave_has_semitone w l (k - c)) as [g Hg]; [lia|].
      exists g. replace k with (c + (k - c)) by lia.
      now apply (table_lookup w calib c7 c l). }
  split.
  - intros k. rewrite <- Hkeys, in_keys_get. unfold mem.
    destruct (get k (note_positions self)); split; eauto; try discriminate.
    intros [v Hv]. discriminate.
  - set (B := flat_map (fun c => map (Z.add c) (range 0 12)) (keys calib)).
    assert (HB : forall k, In k B <-> exists c, In c (keys calib) /\ c <= k < c + 12).
    { intros k. unfold B. rewrite in_flat_map. split.
      - intros (c & Hin & Hk). apply in_map_iff in Hk.
        destruct Hk as (s & <- & Hs). exists c. split; [assumption|].
        apply in_range in Hs. lia.
      - intros (c & Hin & Hr). exists c. split; [assumption|].
        apply in_map_iff. exists (k - c). split; [lia|].
        apply in_range. lia. }
    assert (HndB : NoDup B).
    { destruct Hc as [Hndc Hall]. apply octave_pitches_unique; auto.
      intros c Hin. apply in_map_iff in Hin. destruct Hin as (e & <- & He).
      rewrite Forall_forall in Hall. apply (Hall e He). }
    assert (HlenB : length B = (12 * length calib)%nat).
    { unfold B. rewrite (flat_map_length_const _ 12%nat).
      - unfold keys. now rewrite length_map.
      - intros a. reflexivity. }
    rewrite <- HlenB.
    change (length (note_positions self))
      with (length (note_positions self)).
    rewrite <- (length_map fst (note_positions self)).
    fold (keys (note_positions self)).
    apply Nat.le_antisymm; apply NoDup_incl_length; auto.
    + intros k Hk. apply HB. now apply Hkeys.
    + intros k Hk. apply Hkeys. now apply HB.
Qed.

Lemma table_covers_calibrated_octaves_witness :
  exists self,
    __init__ (mkCapture 30 0 1276 720 (@nil Image)) 500
             (Some [(60, 567); (96, 1086)]) = Ok self /\
    length (note_positions self) = (12 * 2)%nat.
Proof.
  eexists. split; [reflexivity|].
  match goal with
  | |- length (note_positions ?s) = _ =>
      refine (proj2 (table_covers_calibrated_octaves Image
                       (mkCapture 30 0 1276 720 (@nil Image)) 500
                       (Some [(60, 567); (96, 1086)]) s eq_refl _))
  end.
  split.
  - cbn. repeat (constructor; [cbn; lia|]). constructor.
  - cbn. repeat (constructor; [cbn; lia|]). constructor.
Defined.

(** ** Black flags and key names *)

Lemma pitch_class c s : c mod 12 = 0 -> 0 <= s < 12 -> (c + s) mod 12 = s.
Proof.
  intros Hc Hs. pose proof (Z.div_mod c 12).
  replace (c + s) with (s + (c / 12) * 12) by lia.
  rewrite Z.mod_add by lia. apply Z.mod_small. lia.
Qed.

(** X4.  Under the calibration contract a key of the table is flagged black
    exactly when the name [analyze] prints for its pitch carries a sharp. *)
Theorem black_flag_is_sharp :
  forall (Frame : Type) (video : Capture Frame) (key_y : Z)
         (c_positions : option (dict Z)) (self : SynthesiaExtractor Frame)
         (k : Z) (g : KeyGeometry),
    __init__ video key_y c_positions = Ok self ->
    calibration_contract (c_left_edge self) ->
    get k (note_positions self) = Some g ->
    is_black g = is_sharp (fst (note_label k)).
Proof.
  intros Frame video key_y cp self k g Hinit [_ Hall] Hk.
  apply init_inv in Hinit. destruct Hinit as (_ & w & c7 & _ & H96 & Hnp).
  rewrite Hnp in Hk.
  destruct (get_store_entry _ _ _ _ _ Hk H96) as (c & l & Hin & Hent).
  rewrite Forall_forall in Hall. destruct (Hall _ Hin) as [Hmod _].
  cbn [fst] in Hmod. unfold note_label. cbn [fst].
  apply octave_entry_cases in Hent.
  destruct Hent as [(i & s & Hs & -> & ->)|(s & lw & r & Hs & -> & ->)].
  - rewrite pitch_class by (auto; apply white_offsets in Hs; lia).
    cbn in Hs. repeat (destruct Hs as [Hs|Hs]; [injection Hs as <- <-; reflexivity|]).
    destruct Hs.
  - rewrite pitch_class by (auto; apply black_offsets in Hs; lia).
    cbn in Hs.
    repeat (destruct Hs as [Hs|Hs]; [injection Hs as <- <- <-; reflexivity|]).
    destruct Hs.
Qed.

Lemma black_flag_is_sharp_witness :
  exists self,
    __init__ (mkCapture 30 0 1276 720 (@nil Image)) 500 None = Ok self /\
    is_black (mkGeom 591 true) = is_sharp (fst (note_label 61)).
Proof.
  eexists. split; [reflexivity|].
  refine (black_flag_is_sharp Image (mkCapture 30 0 1276 720 (@nil Image))
            500 None _ 61 (mkGeom 591 true) eq_refl _ eq_refl).
  split.
  - cbn. repeat (constructor; [cbn; lia|]). constructor.
  - cbn. repeat (constructor; [cbn; lia|]). constructor.
Defined.

(** ** White keys of an octave *)

(** X5.  Under the calibration contract and with a white-key width of at
    least one pixel, the stored x-positions of the white keys of a
    calibrated octave strictly increase with the white-key index. *)
Theorem white_keys_increase :
  forall (Frame : Type) (video : Capture Frame) (key_y : Z)
         (c_positions : option (dict Z)) (self : SynthesiaExtractor Frame)
         (w : Q) (c_midi c_left i j si sj : Z),
    __init__ video key_y c_positions = Ok self ->
    calibration_contract (c_left_edge self) ->
    white_key_width self = Fin w ->
    (1 <= w)%Q ->
    In (c_midi, c_left) (c_left_edge self) ->
    In (i, si) (enumerate white_positions) ->
    In (j, sj) (enumerate white_positions) ->
    i < j ->
    exists xi xj,
      get (c_midi + si) (note_positions self) = Some (mkGeom xi false) /\
      get (c_midi + sj) (note_positions self) = Some (mkGeom xj false) /\
      xi < xj.
Proof.
  intros Frame video key_y cp self w c cl i j si sj Hinit Hc Hw Hw1 Hin Hi Hj Hij.
  apply init_inv in Hinit. destruct Hinit as (_ & w' & c7 & Hw' & H96 & Hnp).
  rewrite Hw in Hw'. injection Hw' as <-. rewrite Hnp.
  assert (Hleft : 0 <= cl).
  { destruct Hc as [_ Hall]. rewrite Forall_forall in Hall. apply (Hall _ Hin). }
  exists (trunc (inject_Z cl + (inject_Z i + (1 # 2)) * w)),
         (trunc (inject_Z cl + (inject_Z j + (1 # 2)) * w)).
  split; [|split].
  - apply (table_lookup w _ c7 c cl); auto.
    apply in_or_app. left. apply in_map_iff. exists (i, si). auto.
  - apply (table_lookup w _ c7 c cl); auto.
    apply in_or_app. left. apply in_map_iff. exists (j, sj). auto.
  - apply white_offsets in Hi. destruct Hi as (Hi0 & _).
    assert (Hc' : (0 <= inject_Z cl)%Q)
      by (change 0%Q with (inject_Z 0); now rewrite <- Zle_Qle).
    assert (Hi' : (0 <= inject_Z i)%Q)
      by (change 0%Q with (inject_Z 0); rewrite <- Zle_Qle; lia).
    assert (Hji : (inject_Z i + 1 <= inject_Z j)%Q).
    { change 1%Q with (inject_Z 1). rewrite <- inject_Z_plus, <- Zle_Qle. lia. }
    assert (Hp : (0 <= inject_Z i * w)%Q) by (apply Qmult_le_0_compat; lra).
    assert (Hd : (0 <= (inject_Z j - inject_Z i - 1) * w)%Q)
      by (apply Qmult_le_0_compat; lra).
    set (I := inject_Z i) in *. set (J := inject_Z j) in *.
    set (C := inject_Z cl) in *.
    apply trunc_step.
    + setoid_replace ((I + (1 # 2)) * w)%Q with (I * w + (1 # 2) * w)%Q by ring.
      lra.
    + setoid_replace ((J + (1 # 2)) * w)%Q
        with ((J - I - 1) * w + w + I * w + (1 # 2) * w)%Q by ring.
      setoid_replace ((I + (1 # 2)) * w)%Q with (I * w + (1 # 2) * w)%Q by ring.
      lra.
Qed.

Lemma white_keys_increase_witness :
  exists self,
    __init__ (mkCapture 30 0 1276 720 (@nil Image)) 500 None = Ok self /\
    exists xi xj,
      get (60 + 0) (note_positions self) = Some (mkGeom xi false) /\
      get (60 + 11) (note_positions self) = Some (mkGeom xj false) /\
      xi < xj.
Proof.
  eexists. split; [reflexivity|].
  match goal with
  | |- exists xi xj, get _ (note_positions ?s) = _ /\ _ =>
      refine (white_keys_increase Image (mkCapture 30 0 1276 720 (@nil Image))
                500 None s (1035 # 42) 60 567 0 6 0 11 eq_refl _ eq_refl _ _ _ _ _)
  end.
  - split; cbn; repeat (constructor; [cbn; lia|]); constructor.
  - vm_compute. discriminate.
  - cbn. tauto.
  - cbn. tauto.
  - cbn. tauto.
  - lia.
Defined.

(** ** The sampled region *)

Lemma is_key_lit_window cvt (self : SynthesiaExtractor Image) frame pitch info
    x1 x2 y1 y2 :
  get pitch (note_positions self) = Some info ->
  sample_window self info = (x1, x2, y1, y2) ->
  is_key_lit cvt self frame pitch =
  if (x2 <=? x1) || (y2 <=? y1) then (false, None)
  else
    let region := slice frame y1 y2 x1 x2 in
    let hsv_region := map (map cvt) region in
    let total_pixels := shape0 region * shape1 region in
    if Qle_bool (lit_threshold self)
         (inject_Z (np_sum green_mask hsv_region) / inject_Z total_pixels)
    then (true, Some left)
    else if Qle_bool (lit_threshold self)
              (inject_Z (np_sum blue_mask hsv_region) / inject_Z total_pixels)
         then (true, Some right)
         else (false, None).
Proof.
  intros Hget Hwin. unfold is_key_lit. rewrite Hget.
  unfold sample_window, sample_center in Hwin.
  destruct (is_black info); injection Hwin as <- <- <- <-; reflexivity.
Qed.

Lemma is_key_lit_names_hand cvt (self : SynthesiaExtractor Image) :
  names_hand (is_key_lit cvt self).
Proof.
  intros frame m h. unfold is_key_lit.
  destruct (get m (note_positions self)) as [info|]; [|discriminate].
  destruct (is_black info).
  all: match goal with
       | |- context [if ?c then (false, None) else _] => destruct c
       end; [discriminate|].
  all: repeat match goal with
       | |- context [Qle_bool ?a ?b] => destruct (Qle_bool a b)
       end; intros [= <-]; discriminate.
Qed.

Lemma slice_ext (f1 f2 : Image) y1 y2 x1 x2 :
  (forall y x, y1 <= y < y2 -> x1 <= x < x2 -> f1 y x = f2 y x) ->
  slice f1 y1 y2 x1 x2 = slice f2 y1 y2 x1 x2.
Proof.
  intros H. unfold slice. apply map_ext_in. intros y Hy.
  apply map_ext_in. intros x0 Hx. apply in_range in Hy, Hx. auto.
Qed.

(** X6.  The verdict depends on the frame only through the pixels of the
    sampled region: two frames that agree on the clamped window of a key
    get the same verdict for it. *)
Theorem is_key_lit_local :
  forall (cvt : BGR -> HSV) (self : SynthesiaExtractor Image)
         (frame1 frame2 : Image) (pitch : Z) (info : KeyGeometry)
         (x1 x2 y1 y2 : Z),
    get pitch (note_positions self) = Some info ->
    sample_window self info = (x1, x2, y1, y2) ->
    (forall y x, y1 <= y < y2 -> x1 <= x < x2 -> frame1 y x = frame2 y x) ->
    is_key_lit cvt self frame1 pitch = is_key_lit cvt self frame2 pitch.
Proof.
  intros cvt self f1 f2 pitch info x1 x2 y1 y2 Hget Hwin Hagree.
  rewrite (is_key_lit_window cvt self f1 pitch info x1 x2 y1 y2 Hget Hwin).
  rewrite (is_key_lit_window cvt self f2 pitch info x1 x2 y1 y2 Hget Hwin).
  now rewrite (slice_ext f1 f2 y1 y2 x1 x2 Hagree).
Qed.

Lemma is_key_lit_local_witness :
  exists self,
    __init__ (mkCapture 30 0 1276 720 (@nil Image)) 500 None = Ok self /\
    is_key_lit (fun p => mkHSV (blue p) (green p) (red p)) self
      (fun _ _ => mkBGR 60 200 200) 60
    = is_key_lit (fun p => mkHSV (blue p) (green p) (red p)) self
        (fun y _ => if y <? 400 then mkBGR 0 0 0 else mkBGR 60 200 200) 60.
Proof.
  eexists. split; [reflexivity|].
  match goal with
  | |- is_key_lit ?c ?s ?f1 _ = is_key_lit _ _ ?f2 _ =>
      refine (is_key_lit_local c s f1 f2 60 (mkGeom 579 false) 573 580 497 504
                eq_refl eq_refl _)
  end.
  intros y x0 Hy Hx. cbv beta.
  destruct (y <? 400) eqn:E; [apply Z.ltb_lt in E; lia|reflexivity].
Defined.

Lemma np_sum_rows (mask : HSV -> bool) (cvt : BGR -> HSV) (frame : Image)
    (b : bool) (ys xs : list Z) :
  (forall y x, In y ys -> In x xs -> mask (cvt (frame y x)) = b) ->
  np_sum mask
    (map (map cvt) (map (fun y => map (fun x => frame y x) xs) ys)) =
  if b then Z.of_nat (length ys) * Z.of_nat (length xs) else 0.
Proof.
  intros H. unfold np_sum. induction ys as [|y ys IH].
  - destruct b; reflexivity.
  - cbn [map sum_Z fold_right]. fold (sum_Z
      (map (fun row => Z.of_nat (length (filter mask row)))
           (map (map cvt) (map (fun y0 => map (fun x => frame y0 x) xs) ys)))).
    rewrite IH by (intros; apply H; simpl; auto).
    assert (Hrow : length (filter mask (map cvt (map (fun x => frame y x) xs)))
                   = if b then length xs else 0%nat).
    { assert (Hx : forall x, In x xs -> mask (cvt (frame y x)) = b)
        by (intros; apply H; simpl; auto).
      clear -Hx. induction xs as [|x0 xs IHx]; [destruct b; reflexivity|].
      cbn [map filter]. rewrite (Hx x0) by (now left).
      destruct b; cbn [length]; rewrite IHx by (intros; apply Hx; now right);
        reflexivity. }
    rewrite Hrow. destruct b; cbn [length]; lia.
Qed.

Lemma slice_pixels (frame : Image) y1 y2 x1 x2 :
  y1 < y2 -> x1 < x2 ->
  shape0 (slice frame y1 y2 x1 x2) * shape1 (slice frame y1 y2 x1 x2) =
  Z.of_nat (length (range y1 y2)) * Z.of_nat (length (range x1 x2)) /\
  0 < Z.of_nat (length (range y1 y2)) * Z.of_nat (length (range x1 x2)).
Proof.
  intros Hy Hx. unfold shape0, shape1, slice.
  rewrite length_map.
  destruct (range y1 y2) as [|y ys] eqn:E.
  - pose proof (range_length y1 y2) as Hl. rewrite E in Hl. simpl in Hl. lia.
  - cbn [map]. rewrite length_map. split; [reflexivity|].
    rewrite (range_length x1 x2). cbn [length].
    apply Z.mul_pos_pos; lia.
Qed.

(** X7.  On a region that is not empty: if every sampled pixel is
    green-like the key is lit for the left hand, whatever the blue mask
    says; if every sampled pixel is blue-like and none green-like it is lit
    for the right hand; if no sampled pixel is of either kind it is unlit.
    The lit threshold is taken in (0, 1], as [__init__] sets it. *)
Theorem uniform_region_verdict :
  forall (cvt : BGR -> HSV) (self : SynthesiaExtractor Image)
         (frame : Image) (pitch : Z) (info : KeyGeometry) (x1 x2 y1 y2 : Z),
    get pitch (note_positions self) = Some info ->
    sample_window self info = (x1, x2, y1, y2) ->
    x1 < x2 -> y1 < y2 ->
    (0 < lit_threshold self)%Q -> (lit_threshold self <= 1)%Q ->
    ((forall y x, y1 <= y < y2 -> x1 <= x < x2 ->
        green_mask (cvt (frame y x)) = true) ->
     is_key_lit cvt self frame pitch = (true, Some left)) /\
    ((forall y x, y1 <= y < y2 -> x1 <= x < x2 ->
        green_mask (cvt (frame y x)) = false) ->
     (forall y x, y1 <= y < y2 -> x1 <= x < x2 ->
        blue_mask (cvt (frame y x)) = true) ->
     is_key_lit cvt self frame pitch = (true, Some right)) /\
    ((forall y x, y1 <= y < y2 -> x1 <= x < x2 ->
        green_mask (cvt (frame y x)) = false) ->
     (forall y x, y1 <= y < y2 -> x1 <= x < x2 ->
        blue_mask (cvt (frame y x)) = false) ->
     is_key_lit cvt self frame pitch = (false, None)).
Proof.
  intros cvt self frame pitch info x1 x2 y1 y2 Hget Hwin Hx Hy Hpos Hle.
  rewrite (is_key_lit_window cvt self frame pitch info x1 x2 y1 y2 Hget Hwin).
  assert (Hnd : (x2 <=? x1) || (y2 <=? y1) = false).
  { apply orb_false_iff. split; apply Z.leb_gt; assumption. }
  rewrite Hnd. cbv zeta.
  destruct (slice_pixels frame y1 y2 x1 x2 Hy Hx) as [-> Htot].
  set (total := Z.of_nat (length (range y1 y2)) * Z.of_nat (length (range x1 x2))) in *.
  assert (Hsum : forall mask b,
             (forall y x, y1 <= y < y2 -> x1 <= x < x2 ->
                mask (cvt (frame y x)) = b) ->
             np_sum mask (map (map cvt) (slice frame y1 y2 x1 x2)) =
             if b then total else 0).
  { intros mask b H. unfold slice. apply np_sum_rows.
    intros y x0 Hy' Hx'. apply in_range in Hy', Hx'. auto. }
  assert (Hone : Qle_bool (lit_threshold self) (inject_Z total / inject_Z total) = true).
  { apply Qle_bool_iff.
    assert (H1 : (inject_Z total / inject_Z total == 1)%Q).
    { apply Qmult_inv_r. intros H0.
      assert (Ht : (0 < inject_Z total)%Q)
        by (change 0%Q with (inject_Z 0); now rewrite <- Zlt_Qlt).
      lra. }
    rewrite H1. assumption. }
  assert (Hzero : Qle_bool (lit_threshold self) (inject_Z 0 / inject_Z total) = false).
  { destruct (Qle_bool (lit_threshold self) (inject_Z 0 / inject_Z total)) eqn:E;
      [|reflexivity].
    apply Qle_bool_iff in E.
    assert (H0 : (inject_Z 0 / inject_Z total == 0)%Q)
      by (unfold Qdiv; change (inject_Z 0) with 0%Q; ring).
    rewrite H0 in E. lra. }
  split; [|split].
  - intros Hg. rewrite (Hsum green_mask true Hg). now rewrite Hone.
  - intros Hg Hb. rewrite (Hsum green_mask false Hg), (Hsum blue_mask true Hb).
    now rewrite Hzero, Hone.
  - intros Hg Hb. rewrite (Hsum green_mask false Hg), (Hsum blue_mask false Hb).
    now rewrite Hzero.
Qed.

Lemma uniform_region_verdict_witness :
  exists self,
    __init__ (mkCapture 30 0 1276 720 (@nil Image)) 500 None = Ok self /\
    is_key_lit (fun p => mkHSV (blue p) (green p) (red p)) self
      (fun _ _ => mkBGR 85 200 200) 60 = (true, Some left).
Proof.
  eexists. split; [reflexivity|].
  match goal with
  | |- is_key_lit ?c ?s ?f _ = _ =>
      refine (proj1 (uniform_region_verdict c s f 60 (mkGeom 579 false)
                       573 580 497 504 eq_refl eq_refl _ _ _ _) _)
  end.
  - lia.
  - lia.
  - reflexivity.
  - vm_compute. discriminate.
  - intros y x0 _ _. reflexivity.
Defined.

(** X8.  A key whose 7x7 box misses the frame is unlit: the box lies left
    of column 0, right of the last column, above row 0 or below the last
    row. *)
Theorem box_outside_frame_unlit :
  forall (cvt : BGR -> HSV) (self : SynthesiaExtractor Image)
         (frame : Image) (pitch : Z) (info : KeyGeometry),
    get pitch (note_positions self) = Some info ->
    0 <= width self -> 0 <= height self ->
    (fst (sample_center self info) + sample_width self / 2 < 0 \/
     width self <= fst (sample_center self info) - sample_width self / 2 \/
     snd (sample_center self info) + sample_height self / 2 < 0 \/
     height self <= snd (sample_center self info) - sample_height self / 2) ->
    is_key_lit cvt self frame pitch = (false, None).
Proof.
  intros cvt self frame pitch info Hget Hw Hh Hout.
  destruct (sample_window self info) as [[[x1 x2] y1] y2] eqn:Hwin.
  rewrite (is_key_lit_window cvt self frame pitch info x1 x2 y1 y2 Hget Hwin).
  unfold sample_window in Hwin.
  destruct (sample_center self info) as [cx cy]. cbn [fst snd] in Hout.
  injection Hwin as <- <- <- <-.
  assert (Hd : (Z.min (width self) (cx + sample_width self / 2 + 1)
                  <=? Z.max 0 (cx - sample_width self / 2)) ||
               (Z.min (height self) (cy + sample_height self / 2 + 1)
                  <=? Z.max 0 (cy - sample_height self / 2)) = true).
  { apply orb_true_iff. rewrite !Z.leb_le. lia. }
  now rewrite Hd.
Qed.

Lemma box_outside_frame_unlit_witness :
  exists self,
    __init__ (mkCapture 30 0 1276 720 (@nil Image)) 800 None = Ok self /\
    is_key_lit (fun p => mkHSV (blue p) (green p) (red p)) self
      (fun _ _ => mkBGR 60 200 200) 60 = (false, None).
Proof.
  eexists. split; [reflexivity|].
  match goal with
  | |- is_key_lit ?c ?s ?f _ = _ =>
      refine (box_outside_frame_unlit c s f 60 (mkGeom 579 false) eq_refl _ _ _)
  end.
  - cbn. lia.
  - cbn. lia.
  - right. right. right. cbn. lia.
Defined.

(** ** Key states during a run *)

Lemma key_step_consistent {Frame} (self : SynthesiaExtractor Frame)
    min_duration t m v state state' emitted :
  1 <= release_debounce_frames self ->
  consistent_state self state ->
  key_step self min_duration t m v state = Ok (state', emitted) ->
  consistent_state self state'.
Proof.
  intros Hrdf (Hc & Ha & Hi). unfold key_step. destruct v as [[|] h].
  - destruct (active state) eqn:Ea; cbn [negb]; intros [= <- <-];
      unfold consistent_state; cbn [unlit_count active start_time].
    + repeat split; try lia; try discriminate. now apply Ha.
    + repeat split; try lia; discriminate.
  - destruct (active state) eqn:Ea; cbn [andb].
    + destruct (release_debounce_frames self <=? unlit_count state + 1) eqn:El.
      * destruct (Qeq_bool (fps self) 0); [discriminate|].
        destruct (start_time state); [|discriminate].
        intros [= <- <-]. unfold consistent_state.
        cbn [unlit_count active start_time].
        repeat split; try lia; try discriminate.
      * apply Z.leb_gt in El. intros [= <- <-]. unfold consistent_state.
        cbn [unlit_count active start_time].
        repeat split; try lia; try discriminate. now apply Ha.
    + intros [= <- <-]. unfold consistent_state.
      cbn [unlit_count active start_time].
      repeat split; try lia; try discriminate. now apply Hi.
Qed.

(** X9.  Once the loop has run, every stored key state has a non-negative
    unlit count; an active key has a start time and fewer consecutive unlit
    frames than the debounce threshold; an inactive key has no start
    time. *)
Theorem key_states_consistent :
  forall (Frame : Type) (is_key_lit_of : Frame -> Z -> bool * option Hand)
         (self : SynthesiaExtractor Frame) (min_duration : Q)
         (frames : list Frame) (frame_num : Z)
         (note_state : dict KeyState) (all_notes : list Note)
         (m : Z) (s : KeyState),
    1 <= release_debounce_frames self ->
    read_loop is_key_lit_of self min_duration frames frame_num ([], [])
      = Ok (note_state, all_notes) ->
    get m note_state = Some s ->
    consistent_state self s.
Proof.
  intros Frame lit_of self min_duration frames n ns notes m s Hrdf Hrun Hget.
  assert (Hinv : loop_inv (fun _ s => consistent_state self s) (fun _ => True)
                          (ns, notes)).
  { eapply read_loop_keeps with (T := fun _ => True);
      [ | | | apply loop_inv_init | exact Hrun].
    - intros k. unfold consistent_state, fresh_state. cbn.
      repeat split; try lia; discriminate.
    - intros k k' v st st' em _ Hs Hstep. split.
      + eapply key_step_consistent; eauto.
      + now apply Forall_forall.
    - auto. }
  destruct Hinv as (HP & _). exact (HP m s Hget).
Qed.

Lemma key_states_consistent_witness :
  exists self,
    __init__ (mkCapture 30 3 1276 720 [lit left; unlit; lit left]) 500 None
      = Ok self /\
    consistent_state self (mkState true (Some (frame_time self 0)) (Some left) 0).
Proof.
  eexists. split; [reflexivity|].
  match goal with
  | |- consistent_state ?s _ =>
      assert (Hr :
        exists ns,
          read_loop (scripted 60) s default_min_duration
            (cap_frames (cap s)) 0 ([], []) = Ok (ns, []) /\
          get 60 ns = Some (mkState true (Some (frame_time s 0)) (Some left) 0));
      [eexists; split; vm_compute; reflexivity|];
      destruct Hr as (ns & Hrun & Hget);
      refine (key_states_consistent Verdict (scripted 60) s default_min_duration
                _ 0 ns [] 60 _ _ Hrun Hget)
  end.
  cbn. lia.
Defined.

(** ** Keys of [note_state] *)

Lemma keys_set {V} k (v : V) (d : dict V) :
  keys (set k v d) = if mem k d then keys d else keys d ++ [k].
Proof.
  unfold mem. induction d as [|[k' v'] d IH]; cbn [set get keys map fst app].
  - reflexivity.
  - destruct (k =? k') eqn:E.
    + apply Z.eqb_eq in E. subst. reflexivity.
    + cbn [map fst]. fold (keys (set k v d)). rewrite IH.
      destruct (get k d); reflexivity.
Qed.

Lemma process_key_keys {Frame} (lit_of : Frame -> Z -> bool * option Hand)
    self min_duration t frame m ns notes ns' notes' :
  process_key lit_of self min_duration t frame m (ns, notes) = Ok (ns', notes') ->
  keys ns' = if mem m ns then keys ns else keys ns ++ [m].
Proof.
  rewrite process_key_unfold.
  destruct (key_step _ _ _ _ _ _) as [[state' emitted]|e]; cbn [bind];
    [|discriminate].
  intros [= <- _]. rewrite keys_set.
  destruct (mem m ns) eqn:E.
  - now rewrite E.
  - unfold mem at 1. rewrite get_set_same. now rewrite keys_set, E.
Qed.

Lemma mem_keys {V} k (d : dict V) : mem k d = true <-> In k (keys d).
Proof.
  rewrite in_keys_get. unfold mem. destruct (get k d); split; eauto;
    try discriminate. intros [v H]. discriminate.
Qed.

Lemma first_frame_creates_states {Frame}
    (lit_of : Frame -> Z -> bool * option Hand) self min_duration t frame
    todo acc acc' :
  NoDup (keys (fst acc) ++ todo) ->
  for_each (process_key lit_of self min_duration t frame) todo acc = Ok acc' ->
  keys (fst acc') = keys (fst acc) ++ todo.
Proof.
  revert acc. induction todo as [|m todo IH]; intros [ns notes] Hnd; cbn [for_each fst].
  - intros [= <-]. now rewrite app_nil_r.
  - destruct (process_key _ _ _ _ _ m (ns, notes)) as [[ns1 notes1]|e] eqn:E;
      cbn [bind]; [|discriminate].
    apply process_key_keys in E. cbn [fst] in Hnd.
    assert (Hm : mem m ns = false).
    { destruct (mem m ns) eqn:Em; [|reflexivity].
      apply mem_keys in Em. apply NoDup_remove_2 in Hnd.
      exfalso. apply Hnd. apply in_or_app. now left. }
    rewrite Hm in E. intros Hrest. apply IH in Hrest.
    + cbn [fst] in Hrest. rewrite Hrest, E. now rewrite <- app_assoc.
    + cbn [fst]. rewrite E, <- app_assoc. exact Hnd.
Qed.

Lemma later_frames_keep_keys {Frame}
    (lit_of : Frame -> Z -> bool * option Hand) self min_duration t frame
    todo acc acc' :
  (forall m, In m todo -> In m (keys (fst acc))) ->
  for_each (process_key lit_of self min_duration t frame) todo acc = Ok acc' ->
  keys (fst acc') = keys (fst acc).
Proof.
  revert acc. induction todo as [|m todo IH]; intros [ns notes] Hin; cbn [for_each fst].
  - now intros [= <-].
  - destruct (process_key _ _ _ _ _ m (ns, notes)) as [[ns1 notes1]|e] eqn:E;
      cbn [bind]; [|discriminate].
    apply process_key_keys in E. cbn [fst] in Hin.
    assert (Hm : mem m ns = true) by (apply mem_keys, Hin; now left).
    rewrite Hm in E. intros Hrest. apply IH in Hrest.
    + cbn [fst] in Hrest. now rewrite Hrest.
    + cbn [fst]. rewrite E. intros k Hk. apply Hin. now right.
Qed.

(** X10.  Key states are created on the first processed frame, one per
    key of [note_positions] and in the same order, and no state is added or
    removed later: after at least one frame the keys of [note_state] are
    the keys of [note_positions]; with no frame there is no state. *)
Theorem states_created_on_first_frame :
  forall (Frame : Type) (is_key_lit_of : Frame -> Z -> bool * option Hand)
         (self : SynthesiaExtractor Frame) (min_duration : Q)
         (frames : list Frame) (frame_num : Z)
         (note_state : dict KeyState) (all_notes : list Note),
    NoDup (keys (note_positions self)) ->
    read_loop is_key_lit_of self min_duration frames frame_num ([], [])
      = Ok (note_state, all_notes) ->
    keys note_state =
      match frames with
      | [] => []
      | _ :: _ => keys (note_positions self)
      end.
Proof.
  intros Frame lit_of self min_duration frames n ns notes Hnd Hrun.
  destruct frames as [|frame rest].
  - cbn in Hrun. now injection Hrun as <- _.
  - cbn [read_loop] in Hrun.
    destruct (process_frame lit_of self min_duration n frame ([], []))
      as [acc1|e] eqn:E1; cbn [bind] in Hrun; [|discriminate].
    assert (H1 : keys (fst acc1) = keys (note_positions self)).
    { unfold process_frame in E1.
      destruct (Qeq_bool (fps self) 0); [discriminate|].
      destruct (trunc (fps self * 20) =? 0); [discriminate|].
      apply first_frame_creates_states in E1; [exact E1|exact Hnd]. }
    clear E1. revert Hrun H1. generalize (n + 1) as k. revert acc1.
    induction rest as [|f rest IH]; intros acc1 k Hrun H1.
    + cbn in Hrun. injection Hrun as ->. exact H1.
    + cbn [read_loop] in Hrun.
      destruct (process_frame lit_of self min_duration k f acc1)
        as [acc2|e] eqn:E2; cbn [bind] in Hrun; [|discriminate].
      apply (IH acc2 (k + 1) Hrun).
      unfold process_frame in E2.
      destruct (Qeq_bool (fps self) 0); [discriminate|].
      destruct (trunc (fps self * 20) =? 0); [discriminate|].
      apply later_frames_keep_keys in E2.
      * now rewrite E2.
      * intros m Hm. now rewrite H1.
Qed.

Lemma states_created_on_first_frame_witness :
  exists self,
    __init__ (mkCapture 30 1 1276 720 [unlit]) 500 None = Ok self /\
    exists ns,
      read_loop (scripted 60) self default_min_duration [unlit] 0 ([], [])
        = Ok (ns, []) /\
      keys ns = keys (note_positions self).
Proof.
  eexists. split; [reflexivity|].
  eexists. split; [vm_compute; reflexivity|].
  match goal with
  | |- keys ?ns = keys (note_positions ?s) =>
      refine (states_created_on_first_frame Verdict (scripted 60) s
                default_min_duration [unlit] 0 ns []
                (init_keys_unique (mkCapture 30 1 1276 720 [unlit])
                   500 None s eq_refl) _)
  end.
  vm_compute. reflexivity.
Defined.

(** ** When [extract] returns *)


(** ** Pitches of the notes *)

Lemma for_each_keys_pitches {Frame} (lit_of : Frame -> Z -> bool * option Hand)
    self min_duration t frame (K : list Z) todo acc acc' :
  (forall m, In m todo -> In m K) ->
  (forall k, In k (keys (fst acc)) -> In k K) ->
  (forall e, In e (snd acc) -> In (midi e) K) ->
  for_each (process_key lit_of self min_duration t frame) todo acc = Ok acc' ->
  (forall k, In k (keys (fst acc')) -> In k K) /\
  (forall e, In e (snd acc') -> In (midi e) K).
Proof.
  revert acc. induction todo as [|m todo IH]; intros [ns notes] Htodo Hk Hn;
    cbn [for_each].
  - intros [= <-]. auto.
  - destruct (process_key _ _ _ _ _ m (ns, notes)) as [[ns1 notes1]|e] eqn:E;
      cbn [bind]; [|discriminate].
    pose proof (process_key_keys _ _ _ _ _ _ _ _ _ _ E) as Hkeys.
    apply process_key_inv in E.
    destruct E as (state' & emitted & Hstep & -> & _).
    apply IH.
    + intros k Hin. apply Htodo. now right.
    + cbn [fst] in *. rewrite Hkeys. intros k Hin.
      destruct (mem m ns); [auto|].
      apply in_app_or in Hin. destruct Hin as [Hin|[<-|[]]]; auto.
      apply Htodo. now left.
    + cbn [snd] in *. intros e Hin. apply in_app_or in Hin.
      destruct Hin as [Hin|Hin]; [auto|].
      destruct (key_step_emitted _ _ _ _ _ _ _ _ Hstep)
        as [->|(st & _ & _ & _ & _ & _ & ->)]; [destruct Hin|].
      destruct Hin as [<-|[]]. cbn [midi]. apply Htodo. now left.
Qed.

(** X12.  Every note returned by [extract] has a pitch that is a key of
    [note_positions]. *)
Theorem notes_pitches_in_table :
  forall (Frame : Type) (is_key_lit_of : Frame -> Z -> bool * option Hand)
         (self : SynthesiaExtractor Frame) (min_duration skip_seconds : Q)
         (notes : list Note) (e : Note),
    extract_with is_key_lit_of self min_duration skip_seconds = Ok notes ->
    In e notes ->
    In (midi e) (keys (note_positions self)).
Proof.
  intros Frame lit_of self min_duration skip notes e Hex He.
  unfold extract_with in Hex.
  destruct (read_loop lit_of self min_duration _ _ _) as [[ns notes0]|err] eqn:Hrun;
    cbn [bind] in Hex; [|discriminate].
  unfold close_remaining in Hex.
  destruct (Qeq_bool (fps self) 0); [discriminate|].
  injection Hex as <-. rewrite close_fold in He.
  set (K := keys (note_positions self)).
  assert (Hinv : (forall k, In k (keys ns) -> In k K) /\
                 (forall e', In e' notes0 -> In (midi e') K)).
  { revert Hrun.
    generalize (trunc (skip * fps self)) at 2 as n.
    generalize (skipn (Z.to_nat (trunc (skip * fps self))) (cap_frames (cap self)))
      as frames.
    assert (Hgen : forall frames n acc,
               (forall k, In k (keys (fst acc)) -> In k K) ->
               (forall e', In e' (snd acc) -> In (midi e') K) ->
               read_loop lit_of self min_duration frames n acc = Ok (ns, notes0) ->
               (forall k, In k (keys ns) -> In k K) /\
               (forall e', In e' notes0 -> In (midi e') K)).
    { induction frames as [|f frames IH]; intros n acc Hk Hn; cbn [read_loop].
      - intros [= ->]. auto.
      - destruct (process_frame lit_of self min_duration n f acc)
          as [acc1|err] eqn:E; cbn [bind]; [|discriminate].
        unfold process_frame in E.
        destruct (Qeq_bool (fps self) 0); [discriminate|].
        destruct (trunc (fps self * 20) =? 0); [discriminate|].
        apply (for_each_keys_pitches _ _ _ _ _ K) in E; auto.
        destruct E as [Hk1 Hn1]. apply IH; auto. }
    intros frames n Hrun. apply (Hgen frames n ([], [])); auto.
    - intros k [].
    - intros e' []. }
  destruct Hinv as [Hk Hn].
  apply in_app_or in He. destruct He as [He|He]; [auto|].
  apply in_flat_map in He. destruct He as ([m s] & Hin & He).
  destruct (closing_notes_cases min_duration
              (inject_Z (total_frames self) / fps self) m s)
    as [Hc|(st & _ & _ & _ & Hc)]; rewrite Hc in He; [destruct He|].
  destruct He as [<-|[]]. cbn [midi]. apply Hk.
  change m with (fst (m, s)). now apply in_map.
Qed.

Lemma notes_pitches_in_table_witness :
  exists self,
    __init__ (mkCapture 30 3 1276 720 [lit left; lit left; lit left]) 500 None
      = Ok self /\
    exists e,
      extract_with (scripted 60) self default_min_duration 0 = Ok [e] /\
      In (midi e) (keys (note_positions self)).
Proof.
  eexists. split; [reflexivity|].
  eexists. split; [vm_compute; reflexivity|].
  match goal with
  | |- In (midi ?e) (keys (note_positions ?s)) =>
      refine (notes_pitches_in_table Verdict (scripted 60) s
                default_min_duration 0 [e] e _ _)
  end.
  - vm_compute. reflexivity.
  - left. reflexivity.
Defined.

(** ** Hands of the notes *)

Lemma extract_notes_begin {Frame} (lit_of : Frame -> Z -> bool * option Hand)
    (self : SynthesiaExtractor Frame) min_duration skip notes e :
  NoDup (keys (note_positions self)) ->
  extract_with lit_of self min_duration skip = Ok notes ->
  In e notes ->
  press_begins lit_of self min_duration (trunc (skip * fps self))
    (skipn (Z.to_nat (trunc (skip * fps self))) (cap_frames (cap self)))
    (midi e) (start e) (note_hand e).
Proof.
  intros Hnd Hex He. unfold extract_with in Hex.
  destruct (read_loop lit_of self min_duration _ _ _) as [[ns notes0]|err] eqn:Hrun;
    cbn [bind] in Hex; [|discriminate].
  unfold close_remaining in Hex.
  destruct (Qeq_bool (fps self) 0); [discriminate|].
  injection Hex as <-. rewrite close_fold in He.
  eapply notes_have_origin; eauto.
Qed.

(** X13.  Every note returned by [extract] on a constructed extractor
    carries a hand, left or right. *)
Theorem notes_carry_a_hand :
  forall (cvt : BGR -> HSV) (video : Capture Image) (key_y : Z)
         (c_positions : option (dict Z)) (self : SynthesiaExtractor Image)
         (skip_seconds min_duration : Q) (notes : list Note) (e : Note),
    __init__ video key_y c_positions = Ok self ->
    extract cvt self skip_seconds min_duration = Ok notes ->
    In e notes ->
    note_hand e = Some left \/ note_hand e = Some right.
Proof.
  intros cvt video key_y cp self skip min_duration notes e Hinit Hex He.
  apply init_keys_unique in Hinit.
  destruct (extract_notes_begin _ _ _ _ _ _ Hinit Hex He)
    as (pre & frame & rest & _ & Hlit & _).
  apply is_key_lit_names_hand in Hlit.
  destruct (note_hand e) as [[|]|]; auto. contradiction.
Qed.

Lemma notes_carry_a_hand_witness :
  exists self,
    __init__ (mkCapture 30 1 1276 720 [fun _ _ => mkBGR 60 200 200]) 500 None
      = Ok self /\
    exists notes,
      extract (fun p => mkHSV (blue p) (green p) (red p)) self 0
              default_min_duration = Ok notes /\
      Forall (fun e => note_hand e = Some left \/ note_hand e = Some right) notes.
Proof.
  eexists. split; [reflexivity|].
  eexists. split; [vm_compute; reflexivity|].
  apply Forall_forall. intros e He.
  match goal with
  | He : In e ?notes |- _ =>
      refine (notes_carry_a_hand (fun p => mkHSV (blue p) (green p) (red p))
                (mkCapture 30 1 1276 720 [fun _ _ => mkBGR 60 200 200])
                500 None _ 0 default_min_duration notes e eq_refl _ He)
  end.
  vm_compute. reflexivity.
Defined.

Lemma hands_partition (notes : list Note) :
  (forall e, In e notes -> note_hand e = Some left \/ note_hand e = Some right) ->
  length notes =
    (length (filter (hand_is left) notes) +
     length (filter (hand_is right) notes))%nat /\
  filter (fun n => negb (hand_is left n)) notes = filter (hand_is right) notes.
Proof.
  induction notes as [|n notes IH]; intros H; [split; reflexivity|].
  destruct IH as [IH1 IH2]; [intros e He; apply H; now right|].
  cbn [filter].
  assert (Hn : (hand_is left n = true /\ hand_is right n = false) \/
               (hand_is left n = false /\ hand_is right n = true)).
  { unfold hand_is. destruct (H n (or_introl eq_refl)) as [-> | ->]; auto. }
  destruct Hn as [[-> ->]|[-> ->]]; cbn [negb length]; rewrite IH2;
    split; auto; lia.
Qed.

(** X14.  For the notes [extract] returns on a constructed extractor, the
    counts [analyze] prints add up: Total = Left + Right. *)
Theorem analyze_counts_add_up :
  forall (cvt : BGR -> HSV) (video : Capture Image) (key_y : Z)
         (c_positions : option (dict Z)) (self : SynthesiaExtractor Image)
         (skip_seconds min_duration : Q) (notes : list Note)
         (total n_left n_right : nat),
    __init__ video key_y c_positions = Ok self ->
    extract cvt self skip_seconds min_duration = Ok notes ->
    analyze_counts notes = Some (total, n_left, n_right) ->
    total = (n_left + n_right)%nat.
Proof.
  intros cvt video key_y cp self skip min_duration notes t l r Hinit Hex Hc.
  assert (Hh : forall e, In e notes ->
                 note_hand e = Some left \/ note_hand e = Some right).
  { intros e He. apply init_keys_unique in Hinit.
    destruct (extract_notes_begin _ _ _ _ _ _ Hinit Hex He)
      as (pre & frame & rest & _ & Hlit & _).
    apply is_key_lit_names_hand in Hlit.
    destruct (note_hand e) as [[|]|]; auto. contradiction. }
  apply hands_partition in Hh. destruct Hh as [Hlen _].
  unfold analyze_counts in Hc. destruct notes as [|n notes]; [discriminate|].
  injection Hc as <- <- <-. exact Hlen.
Qed.

Lemma analyze_counts_add_up_witness :
  exists self,
    __init__ (mkCapture 30 1 1276 720 [fun _ _ => mkBGR 60 200 200]) 500 None
      = Ok self /\
    exists notes,
      extract (fun p => mkHSV (blue p) (green p) (red p)) self 0
              default_min_duration = Ok notes /\
      analyze_counts notes = Some (84, 84, 0)%nat /\
      84%nat = (84 + 0)%nat.
Proof.
  eexists. split; [reflexivity|].
  eexists. split; [vm_compute; reflexivity|].
  split; [vm_compute; reflexivity|].
  match goal with
  | |- _ =>
      refine (analyze_counts_add_up (fun p => mkHSV (blue p) (green p) (red p))
                (mkCapture 30 1 1276 720 [fun _ _ => mkBGR 60 200 200])
                500 None _ 0 default_min_duration _ 84 84 0 eq_refl _ _)
  end.
  - vm_compute. reflexivity.
  - vm_compute. reflexivity.
Defined.

(** ** Tracks of the MIDI file *)

Lemma track_notes_app track l1 l2 :
  track_notes track (l1 ++ l2) = track_notes track l1 ++ track_notes track l2.
Proof.
  induction l1 as [|c l1 IH]; [reflexivity|].
  cbn [app track_notes]. destruct c; auto.
  destruct (track0 =? track); cbn [app]; now rewrite IH.
Qed.

(** X15.  [_save_midi] raises [ZeroDivisionError] on a zero tempo.
    Otherwise it adds each note once, in order: track 0 receives the notes
    whose hand is left, track 1 all the others, and a time of [q] seconds
    becomes [q * tempo / 60] beats. *)
Theorem save_midi_tracks :
  forall (notes : list Note) (tempo : Q),
    ((tempo == 0)%Q -> _save_midi notes tempo = Raise ZeroDivisionError) /\
    (~ (tempo == 0)%Q ->
     exists calls,
       _save_midi notes tempo = Ok calls /\
       track_notes 0 calls = map (to_beats tempo) (filter (hand_is left) notes) /\
       track_notes 1 calls =
         map (to_beats tempo) (filter (fun n => negb (hand_is left n)) notes) /\
       (forall q : Q, (q / (60 / tempo) == q * tempo / 60)%Q)).
Proof.
  intros notes tempo. unfold _save_midi. split.
  - intros H. apply Qeq_eq_bool in H. now rewrite H.
  - intros H. destruct (Qeq_bool tempo 0) eqn:E;
      [apply Qeq_bool_eq in E; contradiction|].
    eexists. split; [reflexivity|].
    rewrite !track_notes_app. cbn [track_notes app].
    assert (Htr : forall tr (keep : Note -> bool),
               (forall n, (track_of n =? tr) = keep n) ->
               track_notes tr
                 (map (fun note =>
                         addNote (track_of note) 0 (midi note)
                                 (start note / (60 / tempo))
                                 (duration note / (60 / tempo)) 100) notes)
               = map (to_beats tempo) (filter keep notes)).
    { intros tr keep Hk. induction notes as [|n notes IH]; [reflexivity|].
      cbn [map track_notes filter]. rewrite Hk.
      destruct (keep n); cbn [map]; now rewrite IH. }
    split; [|split].
    + apply Htr. intros n. unfold track_of, hand_is.
      destruct (note_hand n) as [[|]|]; reflexivity.
    + apply Htr. intros n. unfold track_of, hand_is.
      destruct (note_hand n) as [[|]|]; reflexivity.
    + intros q. field. exact H.
Qed.

Lemma save_midi_tracks_witness :
  exists calls,
    _save_midi [mkNote 60 1 (1 # 2) (Some left); mkNote 72 2 1 (Some right)]
               default_tempo = Ok calls /\
    track_notes 0 calls =
      map (to_beats default_tempo)
          (filter (hand_is left)
             [mkNote 60 1 (1 # 2) (Some left); mkNote 72 2 1 (Some right)]).
Proof.
  destruct (proj2 (save_midi_tracks
                     [mkNote 60 1 (1 # 2) (Some left); mkNote 72 2 1 (Some right)]
                     default_tempo))
    as (calls & Hs & H0 & _).
  - intros H. vm_compute in H. discriminate H.
  - exists calls. split; assumption.
Defined.

(** X16.  The notes [extract] returns on a constructed extractor are split
    between the two tracks by hand: with a non-zero tempo, track 0 receives
    the left-hand notes and track 1 the right-hand notes, each in the order
    of the list. *)
Theorem extracted_notes_split_by_hand :
  forall (cvt : BGR -> HSV) (video : Capture Image) (key_y : Z)
         (c_positions : option (dict Z)) (self : SynthesiaExtractor Image)
         (skip_seconds min_duration tempo : Q) (notes : list Note),
    __init__ video key_y c_positions = Ok self ->
    extract cvt self skip_seconds min_duration = Ok notes ->
    ~ (tempo == 0)%Q ->
    exists calls,
      _save_midi notes tempo = Ok calls /\
      track_notes 0 calls = map (to_beats tempo) (filter (hand_is left) notes) /\
      track_notes 1 calls = map (to_beats tempo) (filter (hand_is right) notes).
Proof.
  intros cvt video key_y cp self skip min_duration tempo notes Hinit Hex Ht.
  assert (Hh : forall e, In e notes ->
                 note_hand e = Some left \/ note_hand e = Some right).
  { intros e He. apply init_keys_unique in Hinit.
    destruct (extract_notes_begin _ _ _ _ _ _ Hinit Hex He)
      as (pre & frame & rest & _ & Hlit & _).
    apply is_key_lit_names_hand in Hlit.
    destruct (note_hand e) as [[|]|]; auto. contradiction. }
  apply hands_partition in Hh. destruct Hh as [_ Hright].
  unfold _save_midi. destruct (Qeq_bool tempo 0) eqn:E;
    [apply Qeq_bool_eq in E; contradiction|].
  eexists. split; [reflexivity|].
  rewrite !track_notes_app. cbn [track_notes app]. rewrite <- Hright.
  assert (Htr : forall tr (keep : Note -> bool),
             (forall n, (track_of n =? tr) = keep n) ->
             track_notes tr
               (map (fun note =>
                       addNote (track_of note) 0 (midi note)
                               (start note / (60 / tempo))
                               (duration note / (60 / tempo)) 100) notes)
             = map (to_beats tempo) (filter keep notes)).
  { intros tr keep Hk. clear Hright Hex. induction notes as [|n notes IH];
      [reflexivity|].
    cbn [map track_notes filter]. rewrite Hk.
    destruct (keep n); cbn [map]; now rewrite IH. }
  split; apply Htr; intros n; unfold track_of, hand_is;
    destruct (note_hand n) as [[|]|]; reflexivity.
Qed.

Lemma extracted_notes_split_by_hand_witness :
  exists self,
    __init__ (mkCapture 30 1 1276 720 [fun _ _ => mkBGR 100 200 200]) 500 None
      = Ok self /\
    exists notes calls,
      extract (fun p => mkHSV (blue p) (green p) (red p)) self 0
              default_min_duration = Ok notes /\
      _save_midi notes default_tempo = Ok calls /\
      track_notes 1 calls =
        map (to_beats default_tempo) (filter (hand_is right) notes).
Proof.
  eexists. split; [reflexivity|].
  eexists.
  match goal with
  | |- exists calls, extract ?c ?s ?k ?d = Ok ?n /\ _ =>
      assert (Hex : extract c s k d = Ok n) by (vm_compute; reflexivity);
      destruct (extracted_notes_split_by_hand c
                  (mkCapture 30 1 1276 720 [fun _ _ => mkBGR 100 200 200])
                  500 None s k d default_tempo n eq_refl Hex)
        as (calls & Hs & _ & H1)
  end.
  - intros H. vm_compute in H. discriminate H.
  - exists calls. split; [assumption|]. split; assumption.
Defined.

(** ** Keys that are never lit *)

(** X17.  A key that is lit in none of the processed frames yields no
    note. *)
Theorem never_lit_no_note :
  forall (Frame : Type) (is_key_lit_of : Frame -> Z -> bool * option Hand)
         (self : SynthesiaExtractor Frame) (min_duration skip_seconds : Q)
         (notes : list Note) (m : Z),
    NoDup (keys (note_positions self)) ->
    extract_with is_key_lit_of self min_duration skip_seconds = Ok notes ->
    (forall frame,
        In frame (skipn (Z.to_nat (trunc (skip_seconds * fps self)))
                        (cap_frames (cap self))) ->
        fst (is_key_lit_of frame m) = false) ->
    notes_of m notes = [].
Proof.
  intros Frame lit_of self min_duration skip notes m Hnd Hex Hunlit.
  destruct (notes_of m notes) as [|e l] eqn:E; [reflexivity|].
  assert (He : In e (notes_of m notes)) by (rewrite E; now left).
  apply filter_In in He. destruct He as [He Hm]. apply Z.eqb_eq in Hm.
  destruct (extract_notes_begin _ _ _ _ _ _ Hnd Hex He)
    as (pre & frame & rest & Hsplit & Hlit & _).
  rewrite Hm in Hlit.
  specialize (Hunlit frame). rewrite Hlit in Hunlit.
  discriminate Hunlit. rewrite Hsplit. apply in_or_app. right. now left.
Qed.

Lemma never_lit_no_note_witness :
  exists self,
    __init__ (mkCapture 30 3 1276 720 [lit left; lit left; lit left]) 500 None
      = Ok self /\
    exists notes,
      extract_with (scripted 60) self default_min_duration 0 = Ok notes /\
      notes_of 61 notes = [].
Proof.
  eexists. split; [reflexivity|].
  eexists. split; [vm_compute; reflexivity|].
  match goal with
  | |- notes_of 61 ?n = [] =>
      refine (never_lit_no_note Verdict (scripted 60) _ default_min_duration 0
                n 61
                (init_keys_unique
                   (mkCapture 30 3 1276 720 [lit left; lit left; lit left])
                   500 None _ eq_refl) _ _)
  end.
  - vm_compute. reflexivity.
  - intros frame _. reflexivity.
Defined.

(** ** Debounce *)

(** X18.  While an active key has seen fewer unlit frames in a row than
    the threshold allows, an unlit frame emits nothing and keeps the press,
    and a lit frame right after it puts the unlit count back to 0 with the
    start time and hand of the press unchanged: a dropout shorter than the
    threshold does not split a note. *)
Theorem short_dropout_absorbed :
  forall (Frame : Type) (self : SynthesiaExtractor Frame)
         (min_duration t1 t2 : Q) (m c : Z) (st : option Q)
         (hd h1 h2 : option Hand),
    c + 1 < release_debounce_frames self ->
    key_step self min_duration t1 m (false, h1) (mkState true st hd c)
      = Ok (mkState true st hd (c + 1), []) /\
    key_step self min_duration t2 m (true, h2) (mkState true st hd (c + 1))
      = Ok (mkState true st hd 0, []).
Proof.
  intros Frame self min_duration t1 t2 m c st hd h1 h2 Hc.
  unfold key_step. cbn [active unlit_count start_time hand negb andb].
  apply Z.leb_gt in Hc. rewrite Hc. split; reflexivity.
Qed.

Lemma short_dropout_absorbed_witness :
  exists self,
    __init__ (mkCapture 30 0 1276 720 (@nil Verdict)) 500 None = Ok self /\
    key_step self default_min_duration (1 # 30) 60 unlit
             (mkState true (Some 0%Q) (Some left) 0)
      = Ok (mkState true (Some 0%Q) (Some left) (0 + 1), []).
Proof.
  eexists. split; [reflexivity|].
  match goal with
  | |- key_step ?s _ _ _ _ _ = _ =>
      refine (proj1 (short_dropout_absorbed Verdict s default_min_duration
                       (1 # 30) (2 # 30) 60 0 (Some 0%Q) (Some left)
                       None (Some right) _))
  end.
  cbn. lia.
Defined.



(** ** Keys do not interact *)

(** X20.  Processing one key for a frame leaves the stored state of every
    other key as it was and appends no note of another pitch. *)
Theorem process_key_leaves_other_keys :
  forall (Frame : Type) (is_key_lit_of : Frame -> Z -> bool * option Hand)
         (self : SynthesiaExtractor Frame) (min_duration time_sec : Q)
         (frame : Frame) (m k : Z)
         (note_state note_state' : dict KeyState)
         (all_notes all_notes' : list Note),
    process_key is_key_lit_of self min_duration time_sec frame m
                (note_state, all_notes) = Ok (note_state', all_notes') ->
    k <> m ->
    get k note_state' = get k note_state /\
    notes_of k all_notes' = notes_of k all_notes.
Proof.
  intros Frame lit_of self min_duration t frame m k ns ns' notes notes' Hrun Hk.
  apply process_key_inv in Hrun.
  destruct Hrun as (state' & emitted & Hstep & -> & _ & Hother & _).
  split; [now apply Hother|].
  rewrite notes_of_app.
  destruct (key_step_emitted _ _ _ _ _ _ _ _ Hstep)
    as [->|(st & _ & _ & _ & _ & _ & ->)]; [now rewrite app_nil_r|].
  unfold notes_of at 2. cbn [filter midi].
  destruct (m =? k) eqn:E; [apply Z.eqb_eq in E; congruence|].
  now rewrite app_nil_r.
Qed.

Lemma process_key_leaves_other_keys_witness :
  exists self,
    __init__ (mkCapture 30 0 1276 720 (@nil Verdict)) 500 None = Ok self /\
    exists ns' notes',
      process_key (scripted 60) self default_min_duration (4 # 30) unlit 60
        ([(60, mkState true (Some 0%Q) (Some left) 1);
          (62, mkState true (Some 0%Q) (Some right) 0)], [])
      = Ok (ns', notes') /\
      get 62 ns' = Some (mkState true (Some 0%Q) (Some right) 0) /\
      notes_of 62 notes' = [].
Proof.
  eexists. split; [reflexivity|].
  eexists. eexists.
  match goal with
  | |- ?run = Ok (?a, ?b) /\ _ =>
      assert (Hrun : run = Ok (a, b)) by (vm_compute; reflexivity);
      split; [exact Hrun|];
      exact (process_key_leaves_other_keys _ _ _ _ _ _ 60 62 _ _ _ _ Hrun
               ltac:(lia))
  end.
Defined.

(** ** Notes of one pitch follow one another *)

Lemma ordered_pairs_app {A} (R : A -> A -> Prop) l1 l2 :
  ForallOrdPairs R l1 -> ForallOrdPairs R l2 ->
  (forall a b, In a l1 -> In b l2 -> R a b) ->
  ForallOrdPairs R (l1 ++ l2).
Proof.
  intros H1 H2 Hx. induction H1 as [|a l Ha Hl IH]; [exact H2|].
  cbn [app]. constructor.
  - apply Forall_app. split; [assumption|].
    apply Forall_forall. intros b Hb. apply Hx; [now left|assumption].
  - apply IH. intros a' b Ha' Hb. apply Hx; [now right|assumption].
Qed.

Lemma ordered_pairs_split {A} (R : A -> A -> Prop) l :
  ForallOrdPairs R l ->
  forall l1 e1 l2 e2 l3, l = l1 ++ e1 :: l2 ++ e2 :: l3 -> R e1 e2.
Proof.
  intros H. induction H as [|a l Ha Hl IH]; intros l1 e1 l2 e2 l3 E.
  - destruct l1; discriminate E.
  - destruct l1 as [|b l1]; cbn [app] in E; injection E as -> ->.
    + rewrite Forall_forall in Ha. apply Ha. apply in_or_app. right. now left.
    + eapply IH. reflexivity.
Qed.

Section Ordering.

Context {Frame : Type}.
Variable is_key_lit_of : Frame -> Z -> bool * option Hand.
Variable self : SynthesiaExtractor Frame.
Variable min_duration : Q.

Hypothesis fps_positive : (0 < fps self)%Q.
Hypothesis threshold_positive : 1 <= release_debounce_frames self.

Lemma backdate_nonneg :
  (0 <= inject_Z (release_debounce_frames self - 1) / fps self)%Q.
Proof.
  apply Qle_shift_div_l; [assumption|].
  setoid_replace (0 * fps self)%Q with 0%Q by ring.
  change 0%Q with (inject_Z 0). rewrite <- Zle_Qle. lia.
Qed.

Lemma ordered_inv_later t t' acc :
  (t <= t')%Q -> ordered_inv t acc -> ordered_inv t' acc.
Proof.
  intros Hle (H1 & H2 & H3). repeat split; auto.
  intros e He. specialize (H1 e He). lra.
Qed.

Lemma process_key_ordered t frame m acc acc' :
  ordered_inv t acc ->
  process_key is_key_lit_of self min_duration t frame m acc = Ok acc' ->
  ordered_inv t acc'.
Proof.
  destruct acc as [ns notes], acc' as [ns' notes'].
  intros (H1 & H2 & H3) Hrun. cbn [fst snd] in *.
  apply process_key_inv in Hrun.
  destruct Hrun as (state' & emitted & Hstep & -> & Hget & Hother & _).
  assert (Hstored : active (state_of m ns) = true ->
                    get m ns = Some (state_of m ns)).
  { unfold state_of. destruct (get m ns); [reflexivity|discriminate]. }
  destruct (key_step_emitted _ _ _ _ _ _ _ _ Hstep)
    as [->|(st & Ha & Hst & _ & Hinactive & _ & ->)].
  - (* nothing emitted *)
    rewrite app_nil_r. repeat split; cbn [fst snd]; auto.
    intros k s st' Hk Hact Hst' e He Hm.
    destruct (Z.eq_dec k m) as [->|Hne].
    + rewrite Hget in Hk. injection Hk as <-.
      destruct (key_step_state _ _ _ _ _ _ _ _ Hstep Hact)
        as [(Ha & Hs & _)|(_ & _ & Hs & _)].
      * rewrite Hs in Hst'. eapply H2; eauto.
      * rewrite Hs in Hst'. injection Hst' as <-. auto.
    + rewrite Hother in Hk by assumption. eapply H2; eauto.
  - (* a note is emitted and the key becomes inactive *)
    pose proof backdate_nonneg as Hx.
    set (x := (inject_Z (release_debounce_frames self - 1) / fps self)%Q) in *.
    assert (Hend : forall e, In e notes -> midi e = m -> (note_end e <= st)%Q).
    { intros e He Hm. eapply (H2 m (state_of m ns) st); eauto. }
    repeat split; cbn [fst snd].
    + intros e He. apply in_app_or in He. destruct He as [He|[<-|[]]]; auto.
      unfold note_end. cbn [start duration]. lra.
    + intros k s st' Hk Hact Hst' e He Hm.
      destruct (Z.eq_dec k m) as [->|Hne].
      * rewrite Hget in Hk. injection Hk as <-. congruence.
      * rewrite Hother in Hk by assumption.
        apply in_app_or in He. destruct He as [He|[<-|[]]].
        -- eapply H2; eauto.
        -- cbn [midi] in Hm. congruence.
    + apply ordered_pairs_app; auto.
      * constructor; constructor.
      * intros a b Ha' [<-|[]] Hm. cbn [start]. cbn [midi] in Hm. auto.
Qed.

Lemma keys_ordered t frame todo acc acc' :
  ordered_inv t acc ->
  for_each (process_key is_key_lit_of self min_duration t frame) todo acc
    = Ok acc' ->
  ordered_inv t acc'.
Proof.
  revert acc. induction todo as [|m todo IH]; intros acc Hinv; cbn [for_each].
  - now intros [= <-].
  - destruct (process_key _ _ _ _ _ m acc) as [acc1|e] eqn:E; cbn [bind];
      [|discriminate].
    apply IH. eapply process_key_ordered; eauto.
Qed.

Lemma read_loop_ordered frames n t acc acc' :
  (t <= frame_time self n)%Q ->
  ordered_inv t acc ->
  read_loop is_key_lit_of self min_duration frames n acc = Ok acc' ->
  exists t', ordered_inv t' acc'.
Proof.
  revert n t acc. induction frames as [|f frames IH]; intros n t acc Ht Hinv;
    cbn [read_loop].
  - intros [= <-]. eauto.
  - destruct (process_frame _ _ _ n f acc) as [acc1|e] eqn:E; cbn [bind];
      [|discriminate].
    unfold process_frame in E.
    destruct (Qeq_bool (fps self) 0); [discriminate|].
    destruct (trunc (fps self * 20) =? 0); [discriminate|].
    fold (frame_time self n) in E.
    apply keys_ordered in E; [|eapply ordered_inv_later; eauto].
    apply (IH (n + 1) (frame_time self n) acc1); auto.
    apply frame_time_mono; [assumption|lia].
Qed.

Lemma closing_ordered final_time (ns : dict KeyState) :
  NoDup (keys ns) ->
  ForallOrdPairs in_sequence
    (flat_map (closing_notes min_duration final_time) ns).
Proof.
  induction ns as [|[m s] ns IH]; intros Hnd; cbn [flat_map]; [constructor|].
  apply NoDup_cons_iff in Hnd. destruct Hnd as [Hnin Hnd].
  apply ordered_pairs_app; auto.
  - destruct (closing_notes_cases min_duration final_time m s)
      as [->|(st & _ & _ & _ & ->)]; [constructor|].
    constructor; constructor.
  - intros a b Ha Hb Hm. exfalso. apply Hnin.
    destruct (closing_notes_cases min_duration final_time m s)
      as [Hc|(st & _ & _ & _ & Hc)]; rewrite Hc in Ha; [destruct Ha|].
    destruct Ha as [<-|[]]. cbn [midi] in Hm.
    apply in_flat_map in Hb. destruct Hb as ([k s'] & Hin & Hb).
    destruct (closing_notes_cases min_duration final_time k s')
      as [Hc'|(st' & _ & _ & _ & Hc')]; rewrite Hc' in Hb; [destruct Hb|].
    destruct Hb as [<-|[]]. cbn [midi] in Hm. subst k.
    exact (in_map fst ns (m, s') Hin).
Qed.

Lemma extract_ordered skip_seconds notes :
  extract_with is_key_lit_of self min_duration skip_seconds = Ok notes ->
  ForallOrdPairs in_sequence notes.
Proof.
  intros Hex. unfold extract_with in Hex.
  destruct (read_loop is_key_lit_of self min_duration _ _ _)
    as [[ns notes0]|err] eqn:Hrun; cbn [bind] in Hex; [|discriminate].
  unfold close_remaining in Hex.
  destruct (Qeq_bool (fps self) 0); [discriminate|].
  injection Hex as <-. rewrite close_fold.
  assert (Hnd : NoDup (keys ns)).
  { assert (Hinv : timed_inv (ns, notes0)).
    { eapply read_loop_keeps with (T := fun _ => True);
        [exact timed_fresh | exact (timed_step self min_duration) | auto
        | apply loop_inv_init | exact Hrun]. }
    apply Hinv. }
  assert (Hinit : ordered_inv
                    (frame_time self (trunc (skip_seconds * fps self)))
                    ([], [])).
  { split; [intros e []|]. split; [|constructor].
    intros m s st Hg. discriminate Hg. }
  destruct (read_loop_ordered _ _ _ _ _ (Qle_refl _) Hinit Hrun)
    as (t' & _ & H2 & H3).
  cbn [fst snd] in *.
  apply ordered_pairs_app; auto.
  - now apply closing_ordered.
  - intros a b Ha Hb Hm. apply in_flat_map in Hb.
    destruct Hb as ([m s] & Hin & Hb).
    destruct (closing_notes_cases min_duration
                (inject_Z (total_frames self) / fps self) m s)
      as [Hc|(st & Hact & Hst & _ & Hc)]; rewrite Hc in Hb; [destruct Hb|].
    destruct Hb as [<-|[]]. cbn [start]. cbn [midi] in Hm.
    eapply (H2 m s st); eauto. now apply in_get.
Qed.

End Ordering.

(** X21.  With a positive frame rate and a debounce threshold of at least
    one frame, two notes of the same pitch in the list [extract] returns do
    not overlap: the one that comes first in the list ends no later than
    the other one starts. *)
Theorem same_pitch_notes_do_not_overlap :
  forall (Frame : Type) (is_key_lit_of : Frame -> Z -> bool * option Hand)
         (self : SynthesiaExtractor Frame) (min_duration skip_seconds : Q)
         (notes l1 l2 l3 : list Note) (e1 e2 : Note),
    (0 < fps self)%Q ->
    1 <= release_debounce_frames self ->
    extract_with is_key_lit_of self min_duration skip_seconds = Ok notes ->
    notes = l1 ++ e1 :: l2 ++ e2 :: l3 ->
    midi e1 = midi e2 ->
    (start e1 + duration e1 <= start e2)%Q.
Proof.
  intros Frame lit_of self min_duration skip notes l1 l2 l3 e1 e2
         Hfps Hrdf Hex Hsplit Hm.
  pose proof (extract_ordered lit_of self min_duration Hfps Hrdf skip notes Hex)
    as Hord.
  exact (ordered_pairs_split _ _ Hord l1 e1 l2 e2 l3 Hsplit Hm).
Qed.

Lemma same_pitch_notes_do_not_overlap_witness :
  exists self,
    __init__ (mkCapture 30 8 1276 720
                [lit left; lit left; unlit; unlit; lit right; lit right;
                 lit right; lit right]) 500 None = Ok self /\
    exists e1 e2,
      extract_with (scripted 60) self default_min_duration 0 = Ok [e1; e2] /\
      (start e1 + duration e1 <= start e2)%Q.
Proof.
  eexists. split; [reflexivity|].
  eexists. eexists.
  match goal with
  | |- extract_with ?c ?s ?d ?k = Ok [?a; ?b] /\ _ =>
      assert (Hex : extract_with c s d k = Ok [a; b])
        by (vm_compute; reflexivity);
      split; [exact Hex|];
      refine (same_pitch_notes_do_not_overlap Verdict c s d k [a; b]
                [] [] [] a b _ _ Hex eq_refl eq_refl)
  end.
  - reflexivity.
  - cbn. lia.
Defined.


(** * The minimum duration in the arithmetic of the source *)

(** ** The open loop and the rational one *)

(** With exact rationals the open step is [key_step]. *)
Lemma key_step_t_rational {Frame} (self : SynthesiaExtractor Frame)
    (min_duration t : Q) m v (s : KeyState) :
  key_step_t self (fps self) min_duration t m v (state_as_Q s) =
  match key_step self min_duration t m v s with
  | Ok (s', emitted) => Ok (state_as_Q s', map note_as_Q emitted)
  | Raise e => Raise e
  end.
Proof.
  unfold key_step_t, key_step, state_as_Q. destruct v as [[|] h];
    cbn [t_active t_start_time t_hand t_unlit_count].
  - destruct (active s); reflexivity.
  - destruct (active s && (release_debounce_frames self <=? unlit_count s + 1));
      [|reflexivity].
    cbn [t_is_zero t_sub t_div t_of_int t_ge Q_arith].
    destruct (Qeq_bool (fps self) 0); [reflexivity|].
    destruct (start_time s) as [st|]; [|reflexivity].
    destruct (Qle_bool min_duration _); reflexivity.
Qed.

(** With exact rationals the open closing notes are [closing_notes]. *)
Lemma closing_notes_t_rational (min_duration final_time : Q) m (s : KeyState) :
  closing_notes_t min_duration final_time (m, state_as_Q s) =
  map note_as_Q (closing_notes min_duration final_time (m, s)).
Proof.
  unfold closing_notes_t, closing_notes, close_key, state_as_Q.
  cbn [t_active t_start_time t_hand t_sub t_ge Q_arith].
  destruct (active s); [|reflexivity].
  destruct (start_time s) as [st|]; [|reflexivity].
  destruct (Qle_bool min_duration (final_time - st)); reflexivity.
Qed.

Section TimedLoopFacts.

Context {T : Type} {A : TimeArith T} {Frame : Type}.
Variable is_key_lit_of : Frame -> Z -> bool * option Hand.
Variable self : SynthesiaExtractor Frame.
Variable fps_t : T.
Variable min_duration : T.

Local Abbreviation step_t := (key_step_t self fps_t min_duration).
Local Abbreviation pkey_t :=
  (process_key_t is_key_lit_of self fps_t min_duration).
Local Abbreviation loop_t :=
  (read_loop_t is_key_lit_of self fps_t min_duration).

(** Every active key has a start time, and no key is stored twice. *)
Local Abbreviation timed_t acc :=
  (NoDup (keys (fst acc)) /\
   forall m s, get m (fst acc) = Some s ->
               t_active s = true -> t_start_time s <> None).

Lemma process_key_t_unfold t frame m ns notes :
  pkey_t t frame m (ns, notes) =
  ('(state', emitted) <- step_t t m (is_key_lit_of frame m) (state_of_t m ns) ;;
   Ok (set m state' (if mem m ns then ns else set m (fresh_state_of T) ns),
       notes ++ emitted)).
Proof.
  unfold process_key_t, state_of_t, mem, getitem.
  destruct (get m ns) as [s|] eqn:E.
  - rewrite E. reflexivity.
  - rewrite get_set_same. reflexivity.
Qed.

Lemma key_step_t_timed t m v s s' emitted :
  (t_active s = true -> t_start_time s <> None) ->
  step_t t m v s = Ok (s', emitted) ->
  t_active s' = true -> t_start_time s' <> None.
Proof.
  intros Hs. unfold key_step_t. destruct v as [[|] h].
  - destruct (t_active s) eqn:Ea; cbn [negb]; intros [= <- <-];
      cbn [t_active t_start_time]; auto. discriminate.
  - destruct (t_active s) eqn:Ea; cbn [andb].
    + destruct (release_debounce_frames self <=? t_unlit_count s + 1).
      * destruct (t_is_zero fps_t); [discriminate|].
        destruct (t_start_time s); [|discriminate].
        intros [= <- <-]. cbn [t_active]. discriminate.
      * intros [= <- <-]. cbn [t_active t_start_time]. auto.
    + intros [= <- <-]. cbn [t_active]. discriminate.
Qed.

Lemma process_key_t_timed t frame m acc acc' :
  timed_t acc -> pkey_t t frame m acc = Ok acc' -> timed_t acc'.
Proof.
  destruct acc as [ns notes], acc' as [ns' notes'].
  intros [Hnd Hs]. cbn [fst] in *. rewrite process_key_t_unfold.
  destruct (step_t t m (is_key_lit_of frame m) (state_of_t m ns))
    as [[state' emitted]|e] eqn:E; cbn [bind]; [|discriminate].
  intros [= <- <-]. cbn [fst]. split.
  - apply NoDup_keys_set. destruct (mem m ns); auto using NoDup_keys_set.
  - intros k s Hk. destruct (Z.eq_dec k m) as [->|Hne].
    + rewrite get_set_same in Hk. injection Hk as <-.
      eapply key_step_t_timed; [|exact E].
      unfold state_of_t. destruct (get m ns) as [s0|] eqn:Eg; [eauto|].
      discriminate.
    + rewrite get_set_other in Hk by assumption.
      assert (Hk' : get k ns = Some s).
      { unfold mem in Hk. destruct (get m ns); [assumption|].
        now rewrite get_set_other in Hk. }
      eauto.
Qed.

Lemma read_loop_t_timed frames n acc acc' :
  timed_t acc -> loop_t frames n acc = Ok acc' -> timed_t acc'.
Proof.
  revert n acc. induction frames as [|f frames IH]; intros n acc Hinv;
    cbn [read_loop_t].
  - now intros [= <-].
  - destruct (process_frame_t is_key_lit_of self fps_t min_duration n f acc)
      as [acc1|e] eqn:E; cbn [bind]; [|discriminate].
    apply IH. unfold process_frame_t in E.
    destruct (t_is_zero fps_t); [discriminate|].
    destruct (t_int (t_mul fps_t (t_of_int 20))) as [period|e]; cbn [bind] in E;
      [|discriminate].
    destruct (period =? 0); [discriminate|].
    clear IH. revert acc Hinv E.
    induction (keys (note_positions self)) as [|m ks IHk]; intros acc Hinv;
      cbn [for_each].
    + now intros [= <-].
    + destruct (pkey_t (t_div (t_of_int n) fps_t) f m acc) as [acc2|e] eqn:E2;
        cbn [bind]; [|discriminate].
      apply IHk. eapply process_key_t_timed; eauto.
Qed.

Lemma read_loop_t_started frames n ns notes m s :
  loop_t frames n ([], []) = Ok (ns, notes) ->
  get m ns = Some s ->
  t_is_zero fps_t = false.
Proof.
  destruct frames as [|f frames]; cbn [read_loop_t].
  - intros [= <- <-]. discriminate.
  - unfold process_frame_t. destruct (t_is_zero fps_t); auto. discriminate.
Qed.

Lemma close_fold_t final_time (ns : dict (KeyStateOf T)) (notes : list (NoteOf T)) :
  fold_left (fun acc e => acc ++ closing_notes_t min_duration final_time e)
            ns notes =
  notes ++ flat_map (closing_notes_t min_duration final_time) ns.
Proof.
  revert notes. induction ns as [|e ns IH]; intros notes; cbn [fold_left flat_map].
  - now rewrite app_nil_r.
  - now rewrite IH, app_assoc.
Qed.

Lemma closing_notes_t_pitch final_time k s e :
  In e (closing_notes_t min_duration final_time (k, s)) -> t_midi e = k.
Proof.
  unfold closing_notes_t. destruct (t_active s); [|intros []].
  destruct (t_start_time s) as [st|]; [|intros []].
  destruct (t_ge _ _); [|intros []]. intros [<-|[]]. reflexivity.
Qed.

Lemma notes_of_t_closing final_time m s (ns : dict (KeyStateOf T)) :
  NoDup (keys ns) -> get m ns = Some s ->
  notes_of_t m (flat_map (closing_notes_t min_duration final_time) ns) =
  closing_notes_t min_duration final_time (m, s).
Proof.
  assert (Hsame : forall k s0,
             notes_of_t m (closing_notes_t min_duration final_time (k, s0)) =
             if k =? m then closing_notes_t min_duration final_time (k, s0)
             else []).
  { intros k s0. unfold notes_of_t.
    pose proof (closing_notes_t_pitch final_time k s0) as Hp.
    induction (closing_notes_t min_duration final_time (k, s0)) as [|e l IHl].
    - destruct (k =? m); reflexivity.
    - cbn [filter]. rewrite (Hp e (or_introl eq_refl)).
      rewrite IHl by (intros e' He'; apply Hp; now right).
      destruct (k =? m); reflexivity. }
  induction ns as [|[k s'] ns IH]; cbn [flat_map get]; [discriminate|].
  intros Hnd Hget. apply NoDup_cons_iff in Hnd. destruct Hnd as [Hnin Hnd].
  unfold notes_of_t in *. rewrite filter_app, Hsame. destruct (m =? k) eqn:E.
  - apply Z.eqb_eq in E. subst k. rewrite Z.eqb_refl. injection Hget as ->.
    assert (Hrest : filter (fun e => t_midi e =? m)
                      (flat_map (closing_notes_t min_duration final_time) ns) = []).
    { clear -Hnin Hsame. induction ns as [|[k' s''] ns IHn]; [reflexivity|].
      cbn [flat_map]. rewrite filter_app, Hsame.
      destruct (k' =? m) eqn:E'.
      - apply Z.eqb_eq in E'. subst k'. exfalso. apply Hnin. now left.
      - cbn [app]. apply IHn. intros Hin. apply Hnin. now right. }
    rewrite Hrest. apply app_nil_r.
  - rewrite Z.eqb_sym, E. cbn [app]. auto.
Qed.

End TimedLoopFacts.

(** ** Releases *)

(** C7.  In whatever arithmetic the times are computed: when an active key
    sees an unlit verdict that brings its unlit count to the debounce
    threshold, the key becomes inactive, and a note is appended exactly
    when the duration the code computes,
    [(time_sec - (release_debounce_frames - 1) / fps) - start_time],
    passes the test [dur >= min_duration]; when it fails the test nothing
    is appended. *)
Theorem release_emits_iff_long_enough :
  forall (T : Type) (A : TimeArith T) (Frame : Type)
         (is_key_lit_of : Frame -> Z -> bool * option Hand)
         (self : SynthesiaExtractor Frame) (fps_t min_duration time_sec : T)
         (frame : Frame) (m : Z) (note_state : dict (KeyStateOf T))
         (all_notes : list (NoteOf T)) (state : KeyStateOf T) (st : T),
    get m note_state = Some state ->
    t_active state = true ->
    t_start_time state = Some st ->
    fst (is_key_lit_of frame m) = false ->
    release_debounce_frames self <= t_unlit_count state + 1 ->
    t_is_zero fps_t = false ->
    let dur :=
      t_sub (t_sub time_sec
                   (t_div (t_of_int (release_debounce_frames self - 1)) fps_t))
            st in
    let note_state' :=
      set m (mkStateOf false None (t_hand state) (t_unlit_count state + 1))
          note_state in
    (t_ge dur min_duration = true ->
       process_key_t is_key_lit_of self fps_t min_duration time_sec frame m
                     (note_state, all_notes)
       = Ok (note_state', all_notes ++ [mkNoteOf m st dur (t_hand state)])) /\
    (t_ge dur min_duration = false ->
       process_key_t is_key_lit_of self fps_t min_duration time_sec frame m
                     (note_state, all_notes)
       = Ok (note_state', all_notes)).
Proof.
  intros T A Frame lit_of self fps_t min_duration time_sec frame m ns notes
         state st Hget Ha Hst Hv Hcount Hfps dur ns'.
  assert (Hstep :
    key_step_t self fps_t min_duration time_sec m (lit_of frame m)
               (state_of_t m ns) =
    Ok (mkStateOf false None (t_hand state) (t_unlit_count state + 1),
        if t_ge dur min_duration
        then [mkNoteOf m st dur (t_hand state)] else [])).
  { unfold state_of_t. rewrite Hget. unfold key_step_t.
    destruct (lit_of frame m) as [b h]. cbn [fst] in Hv. subst b.
    rewrite Ha, Hst. cbn [andb].
    apply Z.leb_le in Hcount. rewrite Hcount, Hfps. reflexivity. }
  rewrite process_key_t_unfold, Hstep. cbn [bind].
  unfold mem. rewrite Hget. fold ns'.
  split; intros Hd; rewrite Hd; [reflexivity|now rewrite app_nil_r].
Qed.

(** At 100 fps a key lit on frames 2 to 4 is released at frame 6; in
    binary64 the duration is 0.029999999999999995, below the floor 0.03,
    and no note is appended. *)
Lemma release_emits_iff_long_enough_witness :
  exists self,
    __init__ (mkCapture 100 7 1276 720 (@nil Verdict)) 500 None = Ok self /\
    process_key_t (scripted 60) self (float_of_int 100) (float_ratio 3 100)
      (float_ratio 6 100) unlit 60
      ([(60, mkStateOf true (Some (float_ratio 2 100)) (Some left) 1)], [])
    = Ok ([(60, mkStateOf false None (Some left) (1 + 1))], []).
Proof.
  eexists. split; [reflexivity|].
  match goal with
  | |- process_key_t _ ?s _ _ _ _ _ _ = _ =>
      refine (proj2 (release_emits_iff_long_enough float float_arith Verdict
                       (scripted 60) s (float_of_int 100) (float_ratio 3 100)
                       (float_ratio 6 100) unlit 60
                       [(60, mkStateOf true (Some (float_ratio 2 100))
                                       (Some left) 1)] []
                       (mkStateOf true (Some (float_ratio 2 100)) (Some left) 1)
                       (float_ratio 2 100)
                       eq_refl eq_refl eq_refl eq_refl _ _) _)
  end.
  - cbn. lia.
  - vm_compute. reflexivity.
  - vm_compute. reflexivity.
Defined.

(** The same release in the two arithmetics: exact rationals append the
    note of duration 3/100, binary64 appends none. *)
Lemma floor_depends_on_arithmetic :
  exists self,
    __init__ (mkCapture 100 7 1276 720 (@nil Verdict)) 500 None = Ok self /\
    (exists ns e,
        process_key_t (scripted 60) self (fps self) default_min_duration
          (6 # 100) unlit 60
          ([(60, mkStateOf true (Some (2 # 100)) (Some left) 1)], [])
        = Ok (ns, [e])) /\
    (exists ns,
        process_key_t (scripted 60) self (float_of_int 100) (float_ratio 3 100)
          (float_ratio 6 100) unlit 60
          ([(60, mkStateOf true (Some (float_ratio 2 100)) (Some left) 1)], [])
        = Ok (ns, [])).
Proof.
  eexists. split; [reflexivity|]. split.
  - eexists. eexists. vm_compute. reflexivity.
  - eexists. vm_compute. reflexivity.
Qed.

(** ** Notes still held when the stream ends, in the arithmetic of the source *)

(** C2, amended.  In whatever arithmetic the times are computed: for every
    key still active when the frame stream ends, closing the remaining
    notes appends, for that key, exactly one note if the duration the code
    computes, [total_frames / fps - start_time], passes the test
    [dur >= min_duration], and none if it fails it; the note keeps the
    recorded start and hand and has that duration, so it is closed at
    [total_frames / fps]. *)
Theorem held_note_closed_at_total_duration :
  forall (T : Type) (A : TimeArith T) (Frame : Type)
         (is_key_lit_of : Frame -> Z -> bool * option Hand)
         (self : SynthesiaExtractor Frame)
         (fps_t min_duration skip_seconds : T) (start_frame : Z)
         (note_state : dict (KeyStateOf T)) (all_notes : list (NoteOf T))
         (m : Z) (state : KeyStateOf T),
    t_int (t_mul skip_seconds fps_t) = Ok start_frame ->
    read_loop_t is_key_lit_of self fps_t min_duration
      (skipn (Z.to_nat start_frame) (cap_frames (cap self)))
      start_frame ([], []) = Ok (note_state, all_notes) ->
    get m note_state = Some state ->
    t_active state = true ->
    exists st closing,
      t_start_time state = Some st /\
      extract_t is_key_lit_of self fps_t min_duration skip_seconds
        = Ok (all_notes ++ closing) /\
      let final_time := t_div (t_of_int (total_frames self)) fps_t in
      let dur := t_sub final_time st in
      (t_ge dur min_duration = true ->
         notes_of_t m closing = [mkNoteOf m st dur (t_hand state)]) /\
      (t_ge dur min_duration = false -> notes_of_t m closing = []).
Proof.
  intros T A Frame lit_of self fps_t min_duration skip start_frame ns notes
         m state Hstart Hrun Hget Ha.
  assert (Hfps : t_is_zero fps_t = false)
    by (eapply read_loop_t_started; eauto).
  pose proof Hrun as Hinv.
  apply (read_loop_t_timed lit_of self fps_t min_duration) in Hinv;
    [|split; [constructor|intros k s Hk; discriminate Hk]].
  destruct Hinv as [Hnd Hs]. cbn [fst] in Hnd, Hs.
  destruct (t_start_time state) as [st|] eqn:Hst;
    [|exfalso; apply (Hs m state Hget Ha Hst)].
  exists st,
    (flat_map (closing_notes_t min_duration
                 (t_div (t_of_int (total_frames self)) fps_t)) ns).
  split; [reflexivity|]. split.
  { unfold extract_t. rewrite Hstart. cbn [bind]. rewrite Hrun. cbn [bind].
    unfold close_remaining_t. rewrite Hfps. now rewrite close_fold_t. }
  intros final_time dur.
  rewrite (notes_of_t_closing min_duration final_time m state ns Hnd Hget).
  unfold closing_notes_t. rewrite Ha, Hst. fold dur.
  split; intros Hd; rewrite Hd; reflexivity.
Qed.

(** At 100 fps and 29 frames, with key 60 lit on frames 26 to 28: in
    binary64 the closing duration is 0.29 - 0.26 = 0.02999999999999997,
    below the floor 0.03, and the held key yields no note. *)
Lemma held_note_closed_at_total_duration_witness :
  exists self,
    __init__ (mkCapture 100 29 1276 720
                (repeat unlit 26 ++ repeat (lit left) 3)) 500 None = Ok self /\
    exists closing,
      extract_t (scripted 60) self (float_of_int 100) (float_ratio 3 100)
                (float_of_int 0) = Ok ([] ++ closing) /\
      notes_of_t 60 closing = [].
Proof.
  eexists. split; [reflexivity|].
  match goal with
  | |- exists closing, extract_t _ ?s _ _ _ = _ /\ _ =>
      assert (Hr :
        exists ns,
          read_loop_t (scripted 60) s (float_of_int 100) (float_ratio 3 100)
            (skipn (Z.to_nat 0) (cap_frames (cap s))) 0 ([], []) = Ok (ns, []) /\
          get 60 ns =
            Some (mkStateOf true (Some (float_ratio 26 100)) (Some left) 0))
  end.
  { eexists. split; vm_compute; reflexivity. }
  destruct Hr as (ns & Hrun & Hget).
  destruct (held_note_closed_at_total_duration float float_arith Verdict
              (scripted 60) _ (float_of_int 100) (float_ratio 3 100)
              (float_of_int 0) 0 ns [] 60 _ eq_refl Hrun Hget eq_refl)
    as (st & closing & Hst & Hex & _ & Hshort).
  injection Hst as <-.
  exists closing. split; [exact Hex|].
  apply Hshort. vm_compute. reflexivity.
Defined.
